(** * gambiarra-arena: the session/round protocol engine of the server

    A shallow embedding of [server/src/ws/hub.ts] (the WebSocket hub),
    [server/src/core/rounds.ts] (the round manager) and the HTTP routes
    that call them, with the properties of the protocol specification
    stated and settled against the embedded code; then the client
    ([client-typescript/src/net/ws.ts], the simulated client and the
    runners) with further properties of server and client.

    Conventions of the embedding:
    - a JS [Map] is a [gmap]; none of the properties depends on the
      iteration order of a map;
    - a JS [number] that takes part in arithmetic (token counts, durations,
      scores, temperature) is an IEEE-754 binary64 [float]; sequence
      numbers, round indices and timestamps are integers ([Z]);
    - objects that are shared by reference (sockets, token arrays, the
      Prisma store, the logger) live in one [World] record which every
      operation threads through the monad [M];
    - a [throw] is the [Throw] result of [M], a [try]/[catch] is
      [try_catch];
    - each handler runs to completion: the interleaving of two handlers at
      an [await] is not part of the model;
    - the Prisma store is an in-memory table; its calls fail where the
      store refuses the write: a metrics row created for a participant
      that has no row, and the deletion of a row that does not exist. *)

From Stdlib Require Import ZArith Uint63 PrimFloat FloatOps SpecFloat.
From stdpp Require Import base option list strings gmap.

Open Scope Z_scope.

(** ** The data model *)

(** Rows of the Prisma store, with the columns the code reads and writes. *)

Inductive SessionStatus := active | ended.

Module Session.
Record t := mk {
  id : string;
  pinHash : string;
  status : SessionStatus;
  createdAt : Z }.
End Session.

Module Participant.
Record t := mk {
  id : string;
  sessionId : string;
  nickname : string;
  runner : string;
  model : string;
  lastSeen : Z }.
End Participant.

Module Round.
Record t := mk {
  id : string;
  sessionId : string;
  index : Z;
  prompt : string;
  maxTokens : Z;
  temperature : float;
  deadlineMs : Z;
  seed : option Z;
  svgMode : bool;
  startedAt : option Z;
  endedAt : option Z }.
End Round.

Module Metrics.
Record t := mk {
  roundId : string;
  participantId : string;
  tokens : float;
  latencyFirstTokenMs : option float;
  durationMs : float;
  tpsAvg : option float;
  modelInfo : option string }.
End Metrics.

(** Messages of [ws/schemas.ts], already parsed. *)

Record RegisterMessage := {
  reg_participant_id : string;
  reg_nickname : string;
  reg_pin : string;
  reg_runner : string;
  reg_model : string }.

Record TokenMessage := {
  tok_round : Z;
  tok_participant_id : string;
  tok_seq : Z;
  tok_content : string }.

Record CompleteMessage := {
  cmp_round : Z;
  cmp_participant_id : string;
  cmp_tokens : float;
  cmp_latency_ms_first_token : option float;
  cmp_duration_ms : float;
  cmp_model_info : option string }.

Inductive ClientMessage :=
| register (m : RegisterMessage)
| token (m : TokenMessage)
| complete (m : CompleteMessage)
| error (code message : string).

Inductive ServerMessage :=
| msg_error (message : string)
| msg_registered (session_id : string)
| msg_challenge (session_id : string) (round : Z) (prompt : string)
    (max_tokens : Z) (temperature : float) (deadline_ms : Z) (seed : option Z)
| msg_token_update (participant_id : string) (round seq : Z)
    (content : string) (total_tokens : Z)
| msg_completion (participant_id : string) (round : Z) (tokens duration_ms : float)
| msg_heartbeat (ts : Z).

(** [JSON.stringify] of a server message.  The wire format is not needed:
    a payload is the message it encodes. *)
Inductive Payload := JSON (m : ServerMessage).
Definition JSON_stringify (m : ServerMessage) : Payload := JSON m.

(** A socket: what was written to it, and whether its [send] throws. *)
Module WebSocket.
Record t := mk {
  sendThrows : bool;
  sent : list Payload;
  closed : bool }.
End WebSocket.

(** A reference to a socket object. *)
Definition WebSocketRef := string.

Record ParticipantConnection := {
  participantId : string;
  sessionId : string;
  ws : WebSocketRef;
  lastSeq : gmap Z Z;
  lastSeen : Z }.

Inductive Level := debug | info | warn | error_level.

(** A log record: level, text, and the message attached to it if any. *)
Record LogEntry := {
  level : Level;
  text : string;
  attached : option ServerMessage }.

(** Modelled from the spec: the vote table of the store; [core/votes.ts],
    which writes it, is not among the sources.  "Vote: (round,
    voter-identity-hash, participant) -> score". *)
Module Vote.
Record t := mk {
  roundId : string;
  voterHash : string;
  participantId : string;
  score : float }.
End Vote.

Record Prisma := {
  session : list Session.t;
  participant : gmap string Participant.t;
  round : list Round.t;
  metrics : gmap (string * string) Metrics.t;
  vote : gmap (string * string * string) Vote.t }.

Definition with_participant
    (f : gmap string Participant.t → gmap string Participant.t) (db : Prisma) : Prisma :=
  {| session := session db; participant := f (participant db); round := round db;
     metrics := metrics db; vote := vote db |}.
Definition with_round (f : list Round.t → list Round.t) (db : Prisma) : Prisma :=
  {| session := session db; participant := participant db; round := f (round db);
     metrics := metrics db; vote := vote db |}.
Definition with_metrics
    (f : gmap (string * string) Metrics.t → gmap (string * string) Metrics.t)
    (db : Prisma) : Prisma :=
  {| session := session db; participant := participant db; round := round db;
     metrics := f (metrics db); vote := vote db |}.
Definition with_vote
    (f : gmap (string * string * string) Vote.t → gmap (string * string * string) Vote.t)
    (db : Prisma) : Prisma :=
  {| session := session db; participant := participant db; round := round db;
     metrics := metrics db; vote := f (vote db) |}.

Record World := {
  prisma : Prisma;
  connections : gmap string ParticipantConnection;
  tokenBuffer : gmap string (gmap Z (list string));
  sockets : gmap WebSocketRef WebSocket.t;
  logger : list LogEntry }.

Definition with_prisma (f : Prisma → Prisma) (w : World) : World :=
  {| prisma := f (prisma w); connections := connections w;
     tokenBuffer := tokenBuffer w; sockets := sockets w; logger := logger w |}.
Definition with_connections
    (f : gmap string ParticipantConnection → gmap string ParticipantConnection)
    (w : World) : World :=
  {| prisma := prisma w; connections := f (connections w);
     tokenBuffer := tokenBuffer w; sockets := sockets w; logger := logger w |}.
Definition with_tokenBuffer
    (f : gmap string (gmap Z (list string)) → gmap string (gmap Z (list string)))
    (w : World) : World :=
  {| prisma := prisma w; connections := connections w;
     tokenBuffer := f (tokenBuffer w); sockets := sockets w; logger := logger w |}.
Definition with_sockets
    (f : gmap WebSocketRef WebSocket.t → gmap WebSocketRef WebSocket.t)
    (w : World) : World :=
  {| prisma := prisma w; connections := connections w;
     tokenBuffer := tokenBuffer w; sockets := f (sockets w); logger := logger w |}.
Definition with_logger (f : list LogEntry → list LogEntry) (w : World) : World :=
  {| prisma := prisma w; connections := connections w;
     tokenBuffer := tokenBuffer w; sockets := sockets w; logger := f (logger w) |}.

(** ** The monad of handlers: state and exceptions *)

Inductive Exn :=
| Error (message : string)   (* [new Error(message)] *)
| SendFailed                 (* thrown by [ws.send] *)
| ParseFailed                (* thrown by [JSON.parse] or by the message schema *)
| ZodError                   (* thrown by the [parse] of a route schema *)
| InvalidScore               (* the two failures the specification names *)
| RoundNotFound              (* for [castVote] *)
| ForeignKeyFailed           (* thrown by the store: the row referred to is missing *)
| RangeError.                (* "Invalid string length" *)

Inductive Result (A : Type) :=
| Ok (a : A)
| Throw (e : Exn).
Arguments Ok {A} a.
Arguments Throw {A} e.

#[global] Instance Result_fmap : FMap Result := λ A B f r,
  match r with Ok a => Ok (f a) | Throw e => Throw e end.

Definition M (A : Type) : Type := World → Result A * World.

#[global] Instance M_ret : MRet M := λ A a w, (Ok a, w).
#[global] Instance M_bind : MBind M := λ A B f m w,
  match m w with
  | (Ok a, w') => f a w'
  | (Throw e, w') => (Throw e, w')
  end.

Definition throw {A} (e : Exn) : M A := λ w, (Throw e, w).
Definition try_catch {A} (body : M A) (handler : Exn → M A) : M A := λ w,
  match body w with
  | (Ok a, w') => (Ok a, w')
  | (Throw e, w') => handler e w'
  end.
Definition gets {A} (f : World → A) : M A := λ w, (Ok (f w), w).
Definition modify (f : World → World) : M unit := λ w, (Ok (), f w).

(** [for (const x of xs) body(x)] *)
Fixpoint for_each {A} (xs : list A) (body : A → M unit) : M unit :=
  match xs with
  | [] => mret ()
  | x :: xs' => body x;; for_each xs' body
  end.

Definition log (l : Level) (t : string) (a : option ServerMessage) : M unit :=
  modify (with_logger (λ ls, ls ++ [{| level := l; text := t; attached := a |}])).

(** [ws.send(payload)]: appends to what the socket has received, or throws. *)
Definition ws_send (r : WebSocketRef) (p : Payload) : M unit :=
  s ← gets (λ w, sockets w !! r);
  match s with
  | Some so =>
      if WebSocket.sendThrows so then throw SendFailed
      else modify (with_sockets
             <[r := WebSocket.mk false (WebSocket.sent so ++ [p]) (WebSocket.closed so)]>)
  | None => throw SendFailed
  end.

(** [map.has(key)] *)
Definition has `{Countable K} {A} (m : gmap K A) (k : K) : bool :=
  if m !! k is Some _ then true else false.

(** The token array reached through [tokenBuffer.get(p).get(r)]; a missing
    map or array reads as the empty stream. *)
Definition stream (w : World) (p : string) (r : Z) : list string :=
  default [] (tokenBuffer w !! p ≫= (.!! r)).

(** ** [ws/hub.ts] *)

Module Hub.

Definition broadcastToTelao (message : ServerMessage) : M unit :=
  log debug "Broadcasting to telao" (Some message).

Definition handleToken (message : TokenMessage) : M unit :=
  let participantKey := tok_participant_id message in
  known ← gets (λ w, has (tokenBuffer w) participantKey);
  (if known : bool then mret ()
   else modify (with_tokenBuffer <[participantKey := ∅]>));;
  roundBuffer ← gets (λ w, default ∅ (tokenBuffer w !! participantKey));
  (if has roundBuffer (tok_round message) then mret ()
   else modify (with_tokenBuffer
          (alter <[tok_round message := []]> participantKey)));;
  (* [tokens] is a reference into the buffer: it is read through [stream] *)
  tokens ← gets (λ w, stream w participantKey (tok_round message));
  if bool_decide (tok_seq message ≠ Z.of_nat (length tokens)) then
    log warn "Sequence mismatch" None
  else
    modify (with_tokenBuffer
      (alter (alter (λ ts, ts ++ [tok_content message]) (tok_round message))
             participantKey));;
    tokens ← gets (λ w, stream w participantKey (tok_round message));
    broadcastToTelao
      (msg_token_update (tok_participant_id message) (tok_round message)
         (tok_seq message) (tok_content message)
         (Z.of_nat (length tokens))).

Definition getCurrentRoundTokens (roundIndex : Z) : M (gmap string (list string)) :=
  gets (λ w, omap (λ rounds : gmap Z (list string), rounds !! roundIndex)
               (tokenBuffer w)).

(** [prisma.session.findFirst({where: {status: 'active'},
    orderBy: {createdAt: 'desc'}})] *)
Definition findActiveSession (ss : list Session.t) : option Session.t :=
  foldl (λ best s,
           match Session.status s, best with
           | ended, _ => best
           | active, None => Some s
           | active, Some b =>
               if Session.createdAt b <? Session.createdAt s then Some s else best
           end) None ss.

(** [prisma.round.findFirst({where: {index}})] *)
Definition findRoundByIndex (rs : list Round.t) (index : Z) : option Round.t :=
  find (λ r, bool_decide (Round.index r = index)) rs.

Section Register.
(** [bcrypt.compare(pin, pinHash)], the credential check. *)
Variable bcrypt_compare : string → string → bool.
(** The clock read by [new Date()]. *)
Variable now : Z.

Definition upsertParticipant (sid : string) (message : RegisterMessage)
    (ps : gmap string Participant.t) : gmap string Participant.t :=
  match ps !! reg_participant_id message with
  | None =>
      <[reg_participant_id message :=
          Participant.mk (reg_participant_id message) sid
            (reg_nickname message) (reg_runner message) (reg_model message) now]> ps
  | Some old =>
      <[reg_participant_id message :=
          Participant.mk (Participant.id old) (Participant.sessionId old)
            (Participant.nickname old) (reg_runner message) (reg_model message) now]> ps
  end.

Definition handleRegister (connId : string) (ws : WebSocketRef)
    (message : RegisterMessage) : M unit :=
  try_catch
    (session ← gets (λ w, findActiveSession (session (prisma w)));
     match session with
     | None => ws_send ws (JSON_stringify (msg_error "No active session"))
     | Some session =>
         let pinValid := bcrypt_compare (reg_pin message) (Session.pinHash session) in
         if negb pinValid then
           ws_send ws (JSON_stringify (msg_error "Invalid PIN"))
         else
           modify (with_prisma (with_participant
             (upsertParticipant (Session.id session) message)));;
           modify (with_connections
             <[connId := {| participantId := reg_participant_id message;
                            sessionId := Session.id session;
                            ws := ws;
                            lastSeq := ∅;
                            lastSeen := now |}]>);;
           log info "Participant registered" None;;
           ws_send ws (JSON_stringify (msg_registered (Session.id session)))
     end)
    (λ _,
       log error_level "Registration failed" None;;
       ws_send ws (JSON_stringify (msg_error "Registration failed"))).
End Register.

Definition tpsAvg_of (message : CompleteMessage) : option float :=
  if (0 <? cmp_duration_ms message)%float
  then Some (cmp_tokens message / cmp_duration_ms message * 1000)%float
  else None.

(** [prisma.metrics.upsert({where: {roundId_participantId}, create,
    update})].  When a row with the key exists, [update] writes the columns
    it is given a value for: [null] is a value, [undefined] is not, so a
    message without [latency_ms_first_token] leaves the stored latency as
    it was.  Otherwise [create] inserts the row, with a null latency when
    the message has none; a metrics row refers to its participant
    ([getRoundMetrics] includes it), and the store refuses a row for a
    participant that has no row. *)
Definition upsertMetrics (round : Round.t) (message : CompleteMessage)
    (tpsAvg : option float) : M unit :=
  let key := (Round.id round, cmp_participant_id message) in
  stored ← gets (λ w, metrics (prisma w) !! key);
  match stored with
  | Some row =>
      modify (with_prisma (with_metrics
        <[key := Metrics.mk (Metrics.roundId row) (Metrics.participantId row)
                   (cmp_tokens message)
                   (match cmp_latency_ms_first_token message with
                    | Some latency => Some latency
                    | None => Metrics.latencyFirstTokenMs row
                    end)
                   (cmp_duration_ms message) tpsAvg (cmp_model_info message)]>))
  | None =>
      registered ← gets (λ w, has (participant (prisma w)) (cmp_participant_id message));
      if registered : bool then
        modify (with_prisma (with_metrics
          <[key := Metrics.mk (Round.id round) (cmp_participant_id message)
                     (cmp_tokens message) (cmp_latency_ms_first_token message)
                     (cmp_duration_ms message) tpsAvg (cmp_model_info message)]>))
      else throw ForeignKeyFailed
  end.

Definition handleComplete (message : CompleteMessage) : M unit :=
  try_catch
    (round ← gets (λ w, findRoundByIndex (round (prisma w)) (cmp_round message));
     match round with
     | None => log error_level "Round not found" None
     | Some round =>
         let tpsAvg := tpsAvg_of message in
         upsertMetrics round message tpsAvg;;
         log info "Completion recorded" None;;
         broadcastToTelao
           (msg_completion (cmp_participant_id message) (cmp_round message)
              (cmp_tokens message) (cmp_duration_ms message))
     end)
    (λ _, log error_level "Failed to record completion" None).

Definition handleDisconnection (connId : string) : M unit :=
  conn ← gets (λ w, connections w !! connId);
  match conn with
  | Some _ =>
      log info "Participant disconnected" None;;
      modify (with_connections (delete connId))
  | None => mret ()
  end.

Definition broadcast (message : ServerMessage) : M unit :=
  let payload := JSON_stringify message in
  conns ← gets (λ w, (map_to_list (connections w)).*2);
  for_each conns (λ conn,
    try_catch (ws_send (ws conn) payload)
              (λ _, log error_level "Broadcast failed" None)).

Definition cleanup : M unit :=
  conns ← gets (λ w, (map_to_list (connections w)).*2);
  for_each conns (λ conn,
    modify (with_sockets (alter (λ so,
      WebSocket.mk (WebSocket.sendThrows so) (WebSocket.sent so) true) (ws conn))));;
  modify (with_connections (λ _, ∅));;
  modify (with_tokenBuffer (λ _, ∅)).

Definition handleMessage (bcrypt_compare : string → string → bool) (now : Z)
    (connId : string) (ws : WebSocketRef) (message : ClientMessage) : M unit :=
  match message with
  | register m => handleRegister bcrypt_compare now connId ws m
  | token m => handleToken m
  | complete m => handleComplete m
  | error _ _ => log error_level "Client error" None
  end.

(** The ['message'] listener installed by [handleConnection]; [data] is
    [None] when [JSON.parse] or [ClientMessageSchema.parse] throws. *)
Definition onMessage (bcrypt_compare : string → string → bool) (now : Z)
    (connId : string) (ws : WebSocketRef) (data : option ClientMessage) : M unit :=
  try_catch
    (match data with
     | None => throw ParseFailed
     | Some message => handleMessage bcrypt_compare now connId ws message
     end)
    (λ _,
       log error_level "Failed to parse message" None;;
       ws_send ws (JSON_stringify (msg_error "Invalid message format"))).

End Hub.

(** ** [core/rounds.ts] *)

Record CreateRoundParams := {
  crp_sessionId : string;
  crp_prompt : string;
  crp_maxTokens : option Z;
  crp_temperature : option float;
  crp_deadlineMs : option Z;
  crp_seed : option Z;
  crp_svgMode : option bool }.

(** The failures of the round manager, under the names the specification
    gives them. *)
Definition SessionNotFound : Exn := Error "Session not found".
Definition RoundMissing : Exn := Error "Round not found".
Definition AlreadyStarted : Exn := Error "Round already started".
Definition NotStarted : Exn := Error "Round not started".
Definition AlreadyEnded : Exn := Error "Round already ended".

(** The literal [0.8], read as JavaScript reads it: the nearest binary64. *)
#[warnings="-inexact-float"]
Definition default_temperature : float := 0.8%float.

Module RoundManager.

(** [prisma.session.findUnique({where: {id}, include: {rounds: true}})] *)
Definition findSession (db : Prisma) (id : string)
    : option (Session.t * list Round.t) :=
  s ← find (λ s, bool_decide (Session.id s = id)) (session db);
  Some (s, filter (λ r, Round.sessionId r = id) (round db)).

(** [prisma.round.findUnique({where: {id}})] *)
Definition findRound (db : Prisma) (id : string) : option Round.t :=
  find (λ r, bool_decide (Round.id r = id)) (round db).

(** [prisma.round.update({where: {id}, data})] *)
Definition updateRound (id : string) (f : Round.t → Round.t)
    (rs : list Round.t) : list Round.t :=
  (λ r, if bool_decide (Round.id r = id) then f r else r) <$> rs.

Definition set_startedAt (t : Z) (r : Round.t) : Round.t :=
  Round.mk (Round.id r) (Round.sessionId r) (Round.index r) (Round.prompt r)
    (Round.maxTokens r) (Round.temperature r) (Round.deadlineMs r) (Round.seed r)
    (Round.svgMode r) (Some t) (Round.endedAt r).

Definition set_endedAt (t : Z) (r : Round.t) : Round.t :=
  Round.mk (Round.id r) (Round.sessionId r) (Round.index r) (Round.prompt r)
    (Round.maxTokens r) (Round.temperature r) (Round.deadlineMs r) (Round.seed r)
    (Round.svgMode r) (Round.startedAt r) (Some t).

(** [newId] is the identifier the store gives to the created row. *)
Definition createRound (newId : string) (params : CreateRoundParams) : M Round.t :=
  session ← gets (λ w, findSession (prisma w) (crp_sessionId params));
  match session with
  | None => throw SessionNotFound
  | Some (_, rounds) =>
      let nextIndex := Z.of_nat (length rounds) + 1 in
      let round :=
        Round.mk newId (crp_sessionId params) nextIndex (crp_prompt params)
          (default 400 (crp_maxTokens params))
          (default default_temperature (crp_temperature params))
          (default 90000 (crp_deadlineMs params))
          (crp_seed params)
          (default false (crp_svgMode params))
          None None in
      modify (with_prisma (with_round (λ rs, rs ++ [round])));;
      log info "Round created" None;;
      mret round
  end.

Definition startRound (now : Z) (roundId : string) : M Round.t :=
  round ← gets (λ w, findRound (prisma w) roundId);
  match round with
  | None => throw RoundMissing
  | Some round =>
      if Round.startedAt round is Some _ then throw AlreadyStarted
      else
        modify (with_prisma (with_round (updateRound roundId (set_startedAt now))));;
        let updatedRound := set_startedAt now round in
        Hub.broadcast
          (msg_challenge (Round.sessionId round) (Round.index round)
             (Round.prompt round) (Round.maxTokens round) (Round.temperature round)
             (Round.deadlineMs round) (Round.seed round));;
        log info "Round started" None;;
        mret updatedRound
  end.

Definition stopRound (now : Z) (roundId : string) : M Round.t :=
  round ← gets (λ w, findRound (prisma w) roundId);
  match round with
  | None => throw RoundMissing
  | Some round =>
      if Round.startedAt round is None then throw NotStarted
      else if Round.endedAt round is Some _ then throw AlreadyEnded
      else
        modify (with_prisma (with_round (updateRound roundId (set_endedAt now))));;
        let updatedRound := set_endedAt now round in
        log info "Round stopped" None;;
        mret updatedRound
  end.

(** [findFirst({where: {sessionId, startedAt: {not: null}, endedAt: null},
    orderBy: {index: 'desc'}})] *)
Definition getCurrentRound (sessionId : string) : M (option Round.t) :=
  gets (λ w,
    foldl (λ best r,
             if bool_decide (Round.sessionId r = sessionId)
                && bool_decide (is_Some (Round.startedAt r))
                && bool_decide (Round.endedAt r = None)
             then match best with
                  | Some b => if Round.index b <? Round.index r then Some r else best
                  | None => Some r
                  end
             else best) None (round (prisma w))).

End RoundManager.

(** The three states of a round, read off its two timestamps. *)
Inductive RoundState := round_pending | round_active | round_ended.

Definition state_of (r : Round.t) : RoundState :=
  match Round.startedAt r, Round.endedAt r with
  | None, _ => round_pending
  | Some _, None => round_active
  | Some _, Some _ => round_ended
  end.

(** ** [core/votes.ts] *)

(** [Number.isInteger]: a finite binary64 [m * 2^e] is an integer when the
    bits of [m] below the binary point are all zero. *)
Definition Number_isInteger (x : float) : bool :=
  match Prim2SF x with
  | S754_zero _ => true
  | S754_finite _ m e =>
      if 0 <=? e then true else Z.land (Z.pos m) (Z.ones (- e)) =? 0
  | S754_infinity _ | S754_nan => false
  end.

(** Modelled from the spec: the score check of the absent [castVote],
    "score must be an integer in [1,5]". *)
Definition integer_1_to_5 (score : float) : bool :=
  Number_isInteger score && (1 <=? score)%float && (score <=? 5)%float.

Module VoteManager.

Record CastVoteParams := {
  roundId : string;
  voterId : string;
  participantId : string;
  score : float }.

Section CastVote.
(** The stable hash of the voter's network origin. *)
Variable hashVoterId : string → string.

(** Modelled from the spec: [VoteManager.castVote] of [core/votes.ts],
    which is not among the sources (only its caller, the [POST /votes]
    route, is).  "score must be an integer in [1,5], else InvalidScore;
    the round must exist, else RoundNotFound; ... A second vote from the
    same (voter, round, participant) overwrites rather than
    duplicates." *)
Definition castVote (params : CastVoteParams) : M Vote.t :=
  if negb (integer_1_to_5 (score params))
  then throw InvalidScore
  else
    round ← gets (λ w, RoundManager.findRound (prisma w) (roundId params));
    match round with
    | None => throw RoundNotFound
    | Some _ =>
        let vote :=
          Vote.mk (roundId params) (hashVoterId (voterId params))
            (participantId params) (score params) in
        modify (with_prisma (with_vote
          <[(roundId params, hashVoterId (voterId params), participantId params)
              := vote]>));;
        mret vote
    end.
End CastVote.

End VoteManager.

Definition with_session (f : list Session.t → list Session.t) (db : Prisma) : Prisma :=
  {| session := f (session db); participant := participant db; round := round db;
     metrics := metrics db; vote := vote db |}.

(** ** The HTTP routes *)

Module Routes.

(** The body of [POST /votes] after [JSON.parse], fields of the right
    JSON type. *)
Record CastVoteBody := {
  roundId : string;
  participantId : string;
  score : float }.

(** [CastVoteSchema.parse]: [score: z.number().min(1).max(5)]. *)
Definition CastVoteSchema_parse (body : CastVoteBody) : M CastVoteBody :=
  if (1 <=? score body)%float && (score body <=? 5)%float
  then mret body else throw ZodError.

(** [POST /votes]; [ip] is [request.ip]. *)
Definition post_votes (hashVoterId : string → string) (ip : string)
    (request_body : CastVoteBody) : M Vote.t :=
  body ← CastVoteSchema_parse request_body;
  let voterId := ip in
  VoteManager.castVote hashVoterId
    {| VoteManager.roundId := roundId body;
       VoteManager.voterId := voterId;
       VoteManager.participantId := participantId body;
       VoteManager.score := score body |}.

Record CreateRoundBody := {
  prompt : string;
  maxTokens : option Z;
  temperature : option float;
  deadlineMs : option Z;
  seed : option Z }.

(** What a route answers: a value, or [reply.code(c).send({error})]. *)
Inductive Reply (A : Type) :=
| reply (a : A)
| reply_code (code : Z) (error : string).
Arguments reply {A} a.
Arguments reply_code {A} code error.

(** [POST /rounds] *)
Definition post_rounds (newId : string) (body : CreateRoundBody)
    : M (Reply Round.t) :=
  session ← gets (λ w, Hub.findActiveSession (session (prisma w)));
  match session with
  | None => mret (reply_code 404 "No active session")
  | Some session =>
      round ← RoundManager.createRound newId
        {| crp_sessionId := Session.id session;
           crp_prompt := prompt body;
           crp_maxTokens := maxTokens body;
           crp_temperature := temperature body;
           crp_deadlineMs := deadlineMs body;
           crp_seed := seed body;
           crp_svgMode := None |};
      mret (reply round)
  end.

(** [POST /rounds/start] and [POST /rounds/stop] *)
Definition post_rounds_start (now : Z) (roundId : string) : M Round.t :=
  RoundManager.startRound now roundId.
Definition post_rounds_stop (now : Z) (roundId : string) : M Round.t :=
  RoundManager.stopRound now roundId.

(** [GET /rounds/current]: the open round with its live tokens. *)
Definition get_rounds_current
    : M (Reply (Round.t * gmap string (list string))) :=
  session ← gets (λ w, Hub.findActiveSession (session (prisma w)));
  match session with
  | None => mret (reply_code 404 "No active session")
  | Some session =>
      round ← RoundManager.getCurrentRound (Session.id session);
      match round with
      | None => mret (reply_code 404 "No active round")
      | Some round =>
          tokens ← Hub.getCurrentRoundTokens (Round.index round);
          mret (reply (round, tokens))
      end
  end.

(** [ToIntegerOrInfinity] of a number: NaN reads as 0, a finite number is
    truncated towards zero. *)
Inductive IntegerOrInfinity := Int (z : Z) | PlusInfinity | MinusInfinity.

Definition ToIntegerOrInfinity (x : float) : IntegerOrInfinity :=
  match Prim2SF x with
  | S754_nan | S754_zero _ => Int 0
  | S754_infinity false => PlusInfinity
  | S754_infinity true => MinusInfinity
  | S754_finite sign m e =>
      let magnitude :=
        if 0 <=? e then Z.shiftl (Z.pos m) e else Z.shiftr (Z.pos m) (- e) in
      Int (if sign then - magnitude else magnitude)
  end.

(** [ToLength]: an integer clamped to [0 .. 2^53 - 1]. *)
Definition ToLength (n : IntegerOrInfinity) : Z :=
  match n with
  | MinusInfinity => 0
  | PlusInfinity => 2 ^ 53 - 1
  | Int z => Z.min (Z.max z 0) (2 ^ 53 - 1)
  end.

(** [s.slice(start, end)] with an integer [start]: a negative bound counts
    from the end of the string, both are clamped to the string. *)
Definition slice (start : Z) (end_ : IntegerOrInfinity) (s : string) : string :=
  let len := Z.of_nat (String.length s) in
  let from := if start <? 0 then Z.max (len + start) 0 else Z.min start len in
  let to := match end_ with
            | MinusInfinity => 0
            | PlusInfinity => len
            | Int e => if e <? 0 then Z.max (len + e) 0 else Z.min e len
            end in
  if to <=? from then EmptyString
  else String.substring (Z.to_nat from) (Z.to_nat (to - from)) s.

(** The character ['0']. *)
Definition digit_zero : Ascii.ascii := Eval cbv in Ascii.ascii_of_nat 48.

Fixpoint zeros (n : nat) : string :=
  match n with
  | O => EmptyString
  | S n' => String digit_zero (zeros n')
  end.

(** [s.padStart(maxLength, '0')].  A string that is long enough is returned
    as it is; a target beyond the longest string of the engine,
    [kMaxLength], is a [RangeError]. *)
Definition padStart (kMaxLength : Z) (maxLength : IntegerOrInfinity) (s : string)
    : Result string :=
  let intMaxLength := ToLength maxLength in
  let stringLength := Z.of_nat (String.length s) in
  if intMaxLength <=? stringLength then Ok s
  else if kMaxLength <? intMaxLength then Throw RangeError
  else Ok (zeros (Z.to_nat (intMaxLength - stringLength)) +:+ s).

(** The body of [POST /session] after [JSON.parse]; [pinLength], when
    given, is a JSON number. *)
Record CreateSessionBody := {
  pinLength : option float }.

(** [CreateSessionSchema.parse]: [pinLength: z.number().optional()
    .default(6)].  Any number but NaN passes: negative numbers, fractions,
    and the infinity that an oversized literal is read as. *)
Definition CreateSessionSchema_parse (body : CreateSessionBody) : Result float :=
  match pinLength body with
  | None => Ok 6%float
  | Some n => if is_nan n then Throw ZodError else Ok n
  end.

(** [prisma.session.updateMany({where: {status: 'active'},
    data: {status: 'ended'}})] *)
Definition end_active (ss : list Session.t) : list Session.t :=
  (λ s, match Session.status s with
        | active => Session.mk (Session.id s) (Session.pinHash s) ended
                      (Session.createdAt s)
        | ended => s
        end) <$> ss.

(** The PIN of a new session, cut out of [Math.random().toString()]:
    [random.slice(2, 2 + pinLength).padStart(pinLength, '0')]. *)
Definition new_pin (kMaxLength : Z) (random : string) (pinLength : float)
    : Result string :=
  padStart kMaxLength (ToIntegerOrInfinity pinLength)
    (slice 2 (ToIntegerOrInfinity (2 + pinLength)%float) random).

(** A computation that only returns or throws. *)
Definition lift {A} (r : Result A) : M A := λ w, (r, w).

(** [POST /session].  [kMaxLength] is the longest string of the engine,
    [random] is [Math.random().toString()], [bcrypt_hash pin] is
    [bcrypt.hash(pin, 10)], [newId] and [now] are the identifier and
    creation time the store gives the new row.  Answers [session_id],
    [pin] and [created_at]. *)
Definition post_session (kMaxLength : Z) (random : string)
    (bcrypt_hash : string → string)
    (newId : string) (now : Z) (request_body : CreateSessionBody)
    : M (string * string * Z) :=
  body_pinLength ← lift (CreateSessionSchema_parse request_body);
  pin ← lift (new_pin kMaxLength random body_pinLength);
  let pinHash := bcrypt_hash pin in
  modify (with_prisma (with_session end_active));;
  let session := Session.mk newId pinHash active now in
  modify (with_prisma (with_session (λ ss, ss ++ [session])));;
  log info "Session created" None;;
  mret (Session.id session, pin, Session.createdAt session).

(** [POST /votes/close] *)
Definition post_votes_close : M string := mret "ok".


End Routes.

(** ** Vocabulary of the properties *)

(** The sequence number the hub expects next from a participant in a round
    (the [expected] of its warning): the length of the buffered stream. *)
Definition expected (w : World) (m : TokenMessage) : Z :=
  Z.of_nat (length (stream w (tok_participant_id m) (tok_round m))).

(** The buffer after a token message: the arrays of the message's
    participant and round exist, and the array of the round has grown by
    the content exactly when [seq] was the expected number. *)
Definition tokenBuffer_after (w : World) (m : TokenMessage)
    : gmap string (gmap Z (list string)) :=
  let ts := stream w (tok_participant_id m) (tok_round m) in
  <[tok_participant_id m :=
      <[tok_round m :=
          if bool_decide (tok_seq m = expected w m) then ts ++ [tok_content m] else ts]>
        (default ∅ (tokenBuffer w !! tok_participant_id m))]>
    (tokenBuffer w).

(** The one record a token message adds to the log. *)
Definition logged_for (w : World) (m : TokenMessage) : LogEntry :=
  if bool_decide (tok_seq m = expected w m) then
    {| level := debug; text := "Broadcasting to telao";
       attached := Some (msg_token_update (tok_participant_id m) (tok_round m)
                           (tok_seq m) (tok_content m) (expected w m + 1)) |}
  else {| level := warn; text := "Sequence mismatch"; attached := None |}.

(** A client streaming the fragments [cs] of one participant and round, one
    token message each, numbered from [seq] on. *)
Fixpoint submit (p : string) (r : Z) (seq : Z) (cs : list string) : M unit :=
  match cs with
  | [] => mret ()
  | c :: cs' =>
      Hub.handleToken {| tok_round := r; tok_participant_id := p;
                         tok_seq := seq; tok_content := c |};;
      submit p r (seq + 1) cs'
  end.

(** How many of the connections [conns] write to the socket [r]. *)
Definition deliveries (conns : list ParticipantConnection) (r : WebSocketRef) : nat :=
  length (filter (λ conn, ws conn = r) conns).

(** A socket after [n] writes of the payload [p] were attempted on it. *)
Definition after_writes (n : nat) (p : Payload) (so : WebSocket.t) : WebSocket.t :=
  if WebSocket.sendThrows so then so
  else WebSocket.mk false (WebSocket.sent so ++ replicate n p) (WebSocket.closed so).

(** The body of the loop of [broadcast]. *)
Definition send_or_log (payload : Payload) (conn : ParticipantConnection) : M unit :=
  try_catch (ws_send (ws conn) payload)
            (λ _, log error_level "Broadcast failed" None).

(** A server that has just started: empty store, nobody connected. *)
Definition empty_world : World :=
  {| prisma := {| session := []; participant := ∅; round := [];
                  metrics := ∅; vote := ∅ |};
     connections := ∅; tokenBuffer := ∅; sockets := ∅; logger := [] |}.

(** Three connections, each with a socket of its own; the [send] of the
    second one throws. *)
Definition three_connections : World :=
  let conn (p : string) (s : WebSocketRef) :=
    {| participantId := p; sessionId := "s1"; ws := s; lastSeq := ∅; lastSeen := 0 |} in
  {| prisma := prisma empty_world;
     connections := {[ "conn-1" := conn "alice" "ws-1";
                       "conn-2" := conn "bob" "ws-2";
                       "conn-3" := conn "carol" "ws-3" ]};
     tokenBuffer := ∅;
     sockets := {[ "ws-1" := WebSocket.mk false [] false;
                   "ws-2" := WebSocket.mk true [] false;
                   "ws-3" := WebSocket.mk false [] false ]};
     logger := [] |}.

(** One registered participant, "alice", on connection "conn-1". *)
Definition alice_connected : World :=
  {| prisma := prisma empty_world;
     connections := {[ "conn-1" := {| participantId := "alice"; sessionId := "s1";
                                      ws := "ws-1"; lastSeq := ∅; lastSeen := 0 |} ]};
     tokenBuffer := ∅;
     sockets := {[ "ws-1" := WebSocket.mk false [] false;
                   "ws-2" := WebSocket.mk false [] false ]};
     logger := [] |}.

(** [bcrypt.compare] for the examples: the hash of a PIN is the PIN. *)
Definition plain_compare (pin pinHash : string) : bool := bool_decide (pin = pinHash).

(** An active session "s1" with PIN 123456, two sockets open, nobody
    registered yet. *)
Definition session_open : World :=
  {| prisma := {| session := [Session.mk "s1" "123456" active 0];
                  participant := ∅; round := []; metrics := ∅; vote := ∅ |};
     connections := ∅;
     tokenBuffer := ∅;
     sockets := {[ "ws-1" := WebSocket.mk false [] false;
                   "ws-2" := WebSocket.mk false [] false ]};
     logger := [] |}.

Definition alice_registers : RegisterMessage :=
  {| reg_participant_id := "alice"; reg_nickname := "Alice"; reg_pin := "123456";
     reg_runner := "ollama"; reg_model := "llama3.1:8b" |}.

(** The binding [handleRegister] stores for a connection. *)
Definition binding (now : Z) (ws : WebSocketRef) (message : RegisterMessage)
    (s : Session.t) : ParticipantConnection :=
  {| participantId := reg_participant_id message; sessionId := Session.id s;
     ws := ws; lastSeq := ∅; lastSeen := now |}.

(** Whether a register message gets through: an active session exists and
    the PIN matches its hash. *)
Definition admitted (bcrypt_compare : string → string → bool)
    (message : RegisterMessage) (w : World) : option Session.t :=
  s ← Hub.findActiveSession (session (prisma w));
  if bcrypt_compare (reg_pin message) (Session.pinHash s) then Some s else None.

(** The metrics row a complete message creates for the round it finds. *)
Definition metrics_row (round : Round.t) (message : CompleteMessage) : Metrics.t :=
  Metrics.mk (Round.id round) (cmp_participant_id message)
    (cmp_tokens message) (cmp_latency_ms_first_token message)
    (cmp_duration_ms message) (Hub.tpsAvg_of message) (cmp_model_info message).

(** Session "s1" with its first round, not yet started. *)
Definition round_one : Round.t :=
  Round.mk "r1" "s1" 1 "p" 10 0.5%float 90000 None false None None.

Definition one_round : World :=
  {| prisma := {| session := [Session.mk "s1" "123456" active 0];
                  participant := ∅; round := [round_one];
                  metrics := ∅; vote := ∅ |};
     connections := ∅; tokenBuffer := ∅; sockets := ∅; logger := [] |}.

(** [complete{tokens, duration_ms}] of "alice" in round 1. *)
Definition alice_completes (tokens duration_ms : float) : CompleteMessage :=
  {| cmp_round := 1; cmp_participant_id := "alice"; cmp_tokens := tokens;
     cmp_latency_ms_first_token := None; cmp_duration_ms := duration_ms;
     cmp_model_info := None |}.

(** The same message, carrying [latency_ms_first_token]. *)
Definition with_latency (latency : float) (m : CompleteMessage) : CompleteMessage :=
  {| cmp_round := cmp_round m; cmp_participant_id := cmp_participant_id m;
     cmp_tokens := cmp_tokens m; cmp_latency_ms_first_token := Some latency;
     cmp_duration_ms := cmp_duration_ms m; cmp_model_info := cmp_model_info m |}.

(** The metrics row after a complete message has updated the row [row]. *)
Definition updated (row : Metrics.t) (message : CompleteMessage) : Metrics.t :=
  Metrics.mk (Metrics.roundId row) (Metrics.participantId row)
    (cmp_tokens message)
    (match cmp_latency_ms_first_token message with
     | Some latency => Some latency
     | None => Metrics.latencyFirstTokenMs row
     end)
    (cmp_duration_ms message) (Hub.tpsAvg_of message) (cmp_model_info message).

(** Session "s1" with its first round and the participant "alice". *)
Definition alice_in_round_one : World :=
  with_prisma (with_participant
    <[ "alice" := Participant.mk "alice" "s1" "Alice" "ollama" "llama3.1:8b" 0 ]>)
    one_round.

(** A store whose only session, "s0", has ended. *)
Definition session_over : World :=
  {| prisma := {| session := [Session.mk "s0" "123456" ended 0];
                  participant := ∅; round := []; metrics := ∅; vote := ∅ |};
     connections := ∅; tokenBuffer := ∅; sockets := ∅; logger := [] |}.

(** The parameters [POST /rounds] passes for a body that has only a prompt. *)
Definition prompt_only (sessionId prompt : string) : CreateRoundParams :=
  {| crp_sessionId := sessionId; crp_prompt := prompt; crp_maxTokens := None;
     crp_temperature := None; crp_deadlineMs := None; crp_seed := None;
     crp_svgMode := None |}.

(** The round [createRound] builds for a session that has [n] rounds. *)
Definition created (newId : string) (params : CreateRoundParams) (n : nat) : Round.t :=
  Round.mk newId (crp_sessionId params) (Z.of_nat n + 1) (crp_prompt params)
    (default 400 (crp_maxTokens params))
    (default default_temperature (crp_temperature params))
    (default 90000 (crp_deadlineMs params))
    (crp_seed params)
    (default false (crp_svgMode params))
    None None.

(** The rounds the store holds for a session. *)
Definition rounds_of (w : World) (sessionId : string) : list Round.t :=
  filter (λ r, Round.sessionId r = sessionId) (round (prisma w)).

(** A vote of the voter at 192.168.1.7 for "alice" in round "r1". *)
Definition vote_for_alice (score : float) : VoteManager.CastVoteParams :=
  {| VoteManager.roundId := "r1"; VoteManager.voterId := "192.168.1.7";
     VoteManager.participantId := "alice"; VoteManager.score := score |}.

Definition vote_body (score : float) : Routes.CastVoteBody :=
  {| Routes.roundId := "r1"; Routes.participantId := "alice";
     Routes.score := score |}.

(** The end-to-end scenario of the specification, on connection "conn-1":
    register with the PIN, create a round with prompt "p" and 10 tokens at
    most, start it, stream "a", "b", "c", and complete with 3 tokens in
    1000 ms. *)
Definition end_to_end : M (gmap string (list string)) :=
  Hub.onMessage plain_compare 0 "conn-1" "ws-1" (Some (register alice_registers));;
  rd ← RoundManager.createRound "r1"
         {| crp_sessionId := "s1"; crp_prompt := "p"; crp_maxTokens := Some 10;
            crp_temperature := None; crp_deadlineMs := None; crp_seed := None;
            crp_svgMode := None |};
  RoundManager.startRound 1 (Round.id rd);;
  for_each [(0, "a"); (1, "b"); (2, "c")] (λ sc,
    Hub.onMessage plain_compare 2 "conn-1" "ws-1"
      (Some (token {| tok_round := Round.index rd; tok_participant_id := "alice";
                      tok_seq := sc.1; tok_content := sc.2 |})));;
  Hub.onMessage plain_compare 3 "conn-1" "ws-1"
    (Some (complete (alice_completes 3 1000)));;
  Hub.getCurrentRoundTokens (Round.index rd).

(** The world a computation leaves, and what it returns. *)
Definition exec {A} (c : M A) (w : World) : World := (c w).2.
Definition eval {A} (c : M A) (w : World) : Result A := (c w).1.

(** ** Vocabulary of the further properties *)

(** The hub handling a list of token messages, in the order they arrive. *)
Definition receive (ms : list TokenMessage) : M unit :=
  for_each ms Hub.handleToken.

(** The [token_update] events of a participant and round that the log
    holds, oldest first: sequence number, content and total. *)
Definition token_updates (lg : list LogEntry) (p : string) (r : Z)
    : list (Z * string * Z) :=
  omap (λ e, match attached e with
             | Some (msg_token_update p' r' seq c total) =>
                 if bool_decide (p' = p ∧ r' = r) then Some (seq, c, total) else None
             | _ => None
             end) lg.

(** The events a gap-free stream stands for: fragment [i] with sequence
    number [i] and total [i + 1]. *)
Definition events_of (cs : list string) : list (Z * string * Z) :=
  imap (λ i c, (Z.of_nat i, c, Z.of_nat i + 1)) cs.

(** Two sessions, the older one ended, each with a round of index 1: "r-old"
    of session "s0" and "r-new" of the active session "s1". *)
Definition old_round : Round.t :=
  Round.mk "r-old" "s0" 1 "p0" 400 0.5%float 90000 None false (Some 2) (Some 3).
Definition new_round : Round.t :=
  Round.mk "r-new" "s1" 1 "p1" 400 0.5%float 90000 None false (Some 11) None.

Definition two_sessions : World :=
  {| prisma := {| session := [Session.mk "s0" "000000" ended 0;
                              Session.mk "s1" "123456" active 10];
                  participant :=
                    {[ "alice" := Participant.mk "alice" "s0" "Alice" "mock" "m0" 1 ]};
                  round := [old_round; new_round];
                  metrics := ∅; vote := ∅ |};
     connections := ∅; tokenBuffer := ∅;
     sockets := {[ "ws-1" := WebSocket.mk false [] false ]};
     logger := [] |}.

(** "alice" registering again, under another nickname and runner. *)
Definition alice_registers_again : RegisterMessage :=
  {| reg_participant_id := "alice"; reg_nickname := "Alice II"; reg_pin := "123456";
     reg_runner := "ollama"; reg_model := "llama3.1:8b" |}.

(** The error a register message is answered with when it is not admitted. *)
Definition refusal (w : World) : ServerMessage :=
  match Hub.findActiveSession (session (prisma w)) with
  | None => msg_error "No active session"
  | Some _ => msg_error "Invalid PIN"
  end.

(** [ws.close()] *)
Definition close_socket (so : WebSocket.t) : WebSocket.t :=
  WebSocket.mk (WebSocket.sendThrows so) (WebSocket.sent so) true.

(** A round of session [sid] that is open: started and not ended. *)
Definition is_open (sid : string) (r : Round.t) : Prop :=
  Round.sessionId r = sid ∧ is_Some (Round.startedAt r) ∧ Round.endedAt r = None.

(** The place of a state in the lifecycle pending, active, ended. *)
Definition rank (s : RoundState) : nat :=
  match s with round_pending => 0 | round_active => 1 | round_ended => 2 end.

(** Two rows are the same challenge: they agree on everything but the two
    timestamps. *)
Definition same_challenge (r r' : Round.t) : Prop :=
  Round.id r' = Round.id r ∧ Round.sessionId r' = Round.sessionId r
  ∧ Round.index r' = Round.index r ∧ Round.prompt r' = Round.prompt r
  ∧ Round.maxTokens r' = Round.maxTokens r
  ∧ Round.temperature r' = Round.temperature r
  ∧ Round.deadlineMs r' = Round.deadlineMs r ∧ Round.seed r' = Round.seed r
  ∧ Round.svgMode r' = Round.svgMode r.

(** Within every session the rounds carry the indices 1, 2, 3, ... in the
    order of the store. *)
Definition well_indexed (w : World) : Prop :=
  ∀ sid, Round.index <$> rounds_of w sid
         = seqZ 1 (Z.of_nat (length (rounds_of w sid))).

(** The challenge [startRound] broadcasts for a round. *)
Definition challenge_of (r : Round.t) : ServerMessage :=
  msg_challenge (Round.sessionId r) (Round.index r) (Round.prompt r)
    (Round.maxTokens r) (Round.temperature r) (Round.deadlineMs r) (Round.seed r).

(** The round [r] at place [i] of the store is still at that place in
    [w'], the same challenge, in the same state or a later one. *)
Definition kept_at (i : nat) (r : Round.t) (w' : World) : Prop :=
  ∃ r', round (prisma w') !! i = Some r'
    ∧ same_challenge r r'
    ∧ (rank (state_of r) ≤ rank (state_of r'))%nat.

(** The PIN [POST /session] computes for a request, when it serves it. *)
Definition pin_of (kMaxLength : Z) (random : string)
    (body : Routes.CreateSessionBody) : Result string :=
  match Routes.CreateSessionSchema_parse body with
  | Ok pinLength => Routes.new_pin kMaxLength random pinLength
  | Throw e => Throw e
  end.

(** The session row [POST /session] creates for a PIN. *)
Definition new_session (bcrypt_hash : string → string)
    (newId : string) (now : Z) (pin : string) : Session.t :=
  Session.mk newId (bcrypt_hash pin) active now.

(** The longest string of V8 on a 64-bit machine, [2^29 - 24] characters. *)
Definition v8_kMaxLength : Z := 2 ^ 29 - 24.

(** The number a small non-negative integer literal is read as. *)
Definition number_of (n : Z) : float := PrimFloat.of_uint63 (Uint63.of_Z n).

(** [n] and [2 + n] are read back from the numbers exactly. *)
Definition read_back (n : Z) : bool :=
  match Routes.ToIntegerOrInfinity (number_of n),
        Routes.ToIntegerOrInfinity (2 + number_of n)%float with
  | Routes.Int a, Routes.Int b => (a =? n) && (b =? 2 + n)
  | _, _ => false
  end.

(** A register message of "alice" with the given PIN. *)
Definition alice_with_pin (pin : string) : RegisterMessage :=
  {| reg_participant_id := "alice"; reg_nickname := "Alice"; reg_pin := pin;
     reg_runner := "mock"; reg_model := "m" |}.

(** A hub that still buffers what "alice" streamed in round 1 of the
    session that is now open. *)
Definition stale_buffer : World :=
  with_tokenBuffer (λ _, {[ "alice" := {[ 1 := ["a"; "b"] ]} ]}) session_open.

(** ** [client-typescript/src/net/ws.ts] and the simulated client *)

Module Client.

Record ClientConfig := {
  url : string;
  participantId : string;
  nickname : string;
  pin : string;
  runner : string;
  model : string }.

(** The client object: whether its socket is there and open
    ([this.ws?.readyState === WebSocket.OPEN]), the reconnection counter,
    and the frames written to the socket so far, oldest first. *)
Record t := {
  config : ClientConfig;
  isOpen : bool;
  reconnectAttempts : Z;
  written : list ClientMessage }.

Definition maxReconnectAttempts : Z := 5.
Definition reconnectDelay : Z := 1000.

Definition send (data : ClientMessage) (c : t) : t :=
  if isOpen c then
    {| config := config c; isOpen := isOpen c;
       reconnectAttempts := reconnectAttempts c; written := written c ++ [data] |}
  else c.

Definition sendToken (round seq : Z) (content : string) (c : t) : t :=
  send (token {| tok_round := round; tok_participant_id := participantId (config c);
                 tok_seq := seq; tok_content := content |}) c.

(** The ['open'] listener of [connect]: the counter is reset and the
    register frame is sent. *)
Definition on_open (c : t) : t :=
  send (register {| reg_participant_id := participantId (config c);
                    reg_nickname := nickname (config c);
                    reg_pin := pin (config c);
                    reg_runner := runner (config c);
                    reg_model := model (config c) |})
    {| config := config c; isOpen := true; reconnectAttempts := 0;
       written := written c |}.

(** The socket has closed; the ['close'] listener then calls
    [attemptReconnect]. *)
Definition on_close (c : t) : t :=
  {| config := config c; isOpen := false;
     reconnectAttempts := reconnectAttempts c; written := written c |}.

(** [attemptReconnect]: the delay of the reconnection it schedules, if it
    schedules one. *)
Definition attemptReconnect (c : t) : option Z * t :=
  if maxReconnectAttempts <=? reconnectAttempts c then (None, c)
  else
    let attempts := reconnectAttempts c + 1 in
    let delay := reconnectDelay * 2 ^ (attempts - 1) in
    (Some delay,
     {| config := config c; isOpen := isOpen c;
        reconnectAttempts := attempts; written := written c |}).

(** What happens while the simulated client answers a challenge: the
    runner hands over a token, the socket closes, a reconnection opens a
    new socket. *)
Inductive Event :=
| token_generated (content : string)
| socket_closed
| socket_reopened.

(** The token callback of the challenge listener, with its counter:
    [client.sendToken({round, seq, content}); seq++]. *)
Definition onToken (round : Z) (content : string) (st : Z * t) : Z * t :=
  (st.1 + 1, sendToken round st.1 content st.2).

Definition step (round : Z) (st : Z * t) (e : Event) : Z * t :=
  match e with
  | token_generated content => onToken round content st
  | socket_closed => (st.1, on_close st.2)
  | socket_reopened => (st.1, on_open st.2)
  end.

(** The challenge listener up to the end of the generation: [let seq = 0],
    then the events. *)
Definition on_challenge (round : Z) (events : list Event) (c : t) : Z * t :=
  foldl (step round) (0, c) events.

End Client.

(** The token frames among the frames a client wrote. *)
Definition token_frames (frames : list ClientMessage) : list TokenMessage :=
  omap (λ f, match f with token m => Some m | _ => None end) frames.

(** The fragments generated before the first one that was generated while
    the socket was not open; [o] tells whether the socket is open at the
    start. *)
Fixpoint until_first_drop (events : list Client.Event) (o : bool) : list string :=
  match events with
  | [] => []
  | Client.token_generated c :: rest =>
      if o then c :: until_first_drop rest o else []
  | Client.socket_closed :: rest => until_first_drop rest false
  | Client.socket_reopened :: rest => until_first_drop rest true
  end.

(** A client of "alice", connected, that has written nothing yet. *)
Definition alice_client : Client.t :=
  {| Client.config := {| Client.url := "ws://localhost:3000/ws";
                         Client.participantId := "alice";
                         Client.nickname := "Alice"; Client.pin := "123456";
                         Client.runner := "mock"; Client.model := "simulator" |};
     Client.isOpen := true; Client.reconnectAttempts := 0; Client.written := [] |}.

(** The token frames the challenge listener writes from counter [seq] on,
    with the socket open or not ([o]) at the start. *)
Fixpoint sent_frames (p : string) (r : Z) (events : list Client.Event)
    (seq : Z) (o : bool) : list TokenMessage :=
  match events with
  | [] => []
  | Client.token_generated c :: rest =>
      (if o then [{| tok_round := r; tok_participant_id := p;
                     tok_seq := seq; tok_content := c |}] else [])
      ++ sent_frames p r rest (seq + 1) o
  | Client.socket_closed :: rest => sent_frames p r rest seq false
  | Client.socket_reopened :: rest => sent_frames p r rest seq true
  end.

(** Session "s1" with an open first round and a pending second one. *)
Definition second_round : Round.t :=
  Round.mk "r2" "s1" 2 "q" 10 0.5%float 90000 None false None None.

Definition one_open_one_pending : World :=
  with_prisma (with_round (λ _, [RoundManager.set_startedAt 5 round_one; second_round]))
    one_round.

(** ** The mock runner of the simulated client *)

Module MockRunner.

Definition MOCK_RESPONSES : list string :=
  [ "Era uma vez em um reino digital distante, onde os bits e bytes dançavam em harmonia...";
    "A inteligência artificial desperta num mundo de possibilidades infinitas, explorando cada neurônio artificial...";
    "No coração do silício, pulsa uma consciência emergente que questiona sua própria existência...";
    "Algoritmos ancestrais sussurram segredos do futuro através de redes neurais profundas...";
    "Entre zeros e uns, nasce uma nova forma de criatividade que transcende a programação..." ].

(** The character [' ']. *)
Definition space : Ascii.ascii := Eval cbv in Ascii.ascii_of_nat 32.

(** [s.split(' ')]; the strings are UTF-8, in which the byte of a space
    occurs only as a space. *)
Fixpoint split (s : string) : list string :=
  match s with
  | EmptyString => [EmptyString]
  | String c s' =>
      if Ascii.eqb c space then EmptyString :: split s'
      else match split s' with
           | w :: ws => String c w :: ws
           | [] => [String c EmptyString]
           end
  end.

(** The first loop of [generate], at [i], with the words from [i] on:
    [for (i; i < Math.min(maxTokens / 3, words.length); i++)
       onToken(words[i] + (i < words.length - 1 ? ' ' : ''))]. *)
Fixpoint word_tokens (maxTokens : Z) (length_words : nat) (i : nat)
    (words : list string) : list string :=
  match words with
  | [] => []
  | word :: rest =>
      if 3 * Z.of_nat i <? maxTokens then
        (word +:+ (if (i <? length_words - 1)%nat then " " else EmptyString))
        :: word_tokens maxTokens length_words (S i) rest
      else []
  end.

(** [generate]: the tokens handed to [onToken], in order.  [maxTokens] is
    [options.maxTokens], [pick] is
    [Math.floor(Math.random() * MOCK_RESPONSES.length)], and
    [generateRandomToken i] is the result of the [i]-th call of
    [generateRandomToken]. *)
Definition generate (maxTokens : option Z) (pick : nat)
    (generateRandomToken : nat → string) : list string :=
  let maxTokens :=
    match maxTokens with
    | Some m => if m =? 0 then 400 else m
    | None => 400
    end in
  let response := default EmptyString (MOCK_RESPONSES !! pick) in
  let words := split response in
  let remainingTokens := maxTokens - Z.of_nat (length words) * 3 in
  word_tokens maxTokens (length words) 0 words
  ++ (if 0 <? remainingTokens
      then generateRandomToken <$> seq 0 (Z.to_nat remainingTokens)
      else []).

End MockRunner.

(** [words.join(' ')] *)
Fixpoint join_spaces (words : list string) : string :=
  match words with
  | [] => EmptyString
  | [w] => w
  | w :: rest => w +:+ String MockRunner.space (join_spaces rest)
  end.

(** All the strings of a list, one after the other. *)
Definition concat_strings (l : list string) : string :=
  foldr String.append EmptyString l.

(** ** The streaming runners: [runners/ollama.ts] and [runners/lmstudio.ts] *)

Module Runners.

(** The character ['\n']. *)
Definition newline : Ascii.ascii := Eval cbv in Ascii.ascii_of_nat 10.

(** [s.split('\n')] *)
Fixpoint split_lines (s : string) : list string :=
  match s with
  | EmptyString => [EmptyString]
  | String c s' =>
      if Ascii.eqb c newline then EmptyString :: split_lines s'
      else match split_lines s' with
           | l :: ls => String c l :: ls
           | [] => [String c EmptyString]
           end
  end.

(** [lines.pop() || '']: the lines that stay, and the one taken off. *)
Fixpoint pop (lines : list string) : list string * string :=
  match lines with
  | [] => ([], EmptyString)
  | [l] => ([], l)
  | l :: rest => let '(kept, last) := pop rest in (l :: kept, last)
  end.

(** What the body of the loop over the lines does with one line: the
    token it hands to [onToken], if any, and whether [generate] returns. *)
Definition Action : Type := option string * bool.

(** [for (const line of lines) ...], up to a [return]: the tokens handed
    over, and whether [generate] has returned. *)
Fixpoint for_lines (handle : string → Action) (lines : list string)
    : list string * bool :=
  match lines with
  | [] => ([], false)
  | line :: rest =>
      let '(text, returns) := handle line in
      let emitted := match text with Some t => [t] | None => [] end in
      if returns then (emitted, true)
      else let '(tokens, returned) := for_lines handle rest in
           (emitted ++ tokens, returned)
  end.

(** The [while (true)] loop of [generate] over the chunks the reader
    yields, starting with [buffer]: the tokens handed to [onToken]. *)
Fixpoint read_loop (handle : string → Action) (buffer : string)
    (chunks : list string) : list string :=
  match chunks with
  | [] => []
  | value :: rest =>
      let buffer := buffer +:+ value in
      let '(lines, buffer) := pop (split_lines buffer) in
      let '(tokens, returned) := for_lines handle lines in
      if returned then tokens else tokens ++ read_loop handle buffer rest
  end.

Section Handlers.
(** [!line.trim()]: the line is empty or white space only. *)
Variable blank : string → bool.

(** Ollama: [JSON.parse(line)] read as [data.response] (when truthy) and
    [data.done]; [None] when it throws. *)
Variable parse_ollama : string → option (option string * bool).

Definition ollama_line (line : string) : Action :=
  if blank line then (None, false)
  else match parse_ollama line with
       | Some (response, done) => (response, done)
       | None => (None, false)
       end.

(** LM Studio: [JSON.parse(data)] read as [parsed.choices?.[0]?.text]
    (when truthy); [None] when it throws or there is no such text. *)
Variable parse_lmstudio : string → option string.

Definition lmstudio_line (line : string) : Action :=
  if blank line || negb (String.prefix "data: " line) then (None, false)
  else
    let data := String.substring 6 (String.length line - 6) line in
    if String.eqb data "[DONE]" then (None, true)
    else (parse_lmstudio data, false).
End Handlers.

(** [generate] of either runner, once the response is there: the tokens
    handed to [onToken] for the chunks of the body. *)
Definition generate (handle : string → Action) (chunks : list string) : list string :=
  read_loop handle EmptyString chunks.

End Runners.

(** The complete lines of a stream: what precedes its last line break. *)
Definition complete_lines (stream : string) : list string :=
  (Runners.pop (Runners.split_lines stream)).1.

(** * Properties *)

(** ** The token sequencer: [handleToken] and [getCurrentRoundTokens] *)

Ltac run_M :=
  unfold mbind, M_bind, mret, M_ret, gets, modify, log, throw, try_catch;
  simpl.

(** Two maps are compared key by key, the key at hand against [k0]. *)
Ltac by_key k0 :=
  let k := fresh "k" in
  apply map_eq; intros k; simpl; destruct (decide (k = k0)) as [->|];
  [ rewrite ?lookup_alter_eq, ?lookup_insert_eq
  | rewrite ?lookup_alter_ne, ?lookup_insert_ne by done ].

Lemma run_eq {A} (a : A) db cs tb tb' ss lg lg' :
  tb = tb' → lg = lg' →
  (Ok a, {| prisma := db; connections := cs; tokenBuffer := tb;
            sockets := ss; logger := lg |})
  = (Ok a, {| prisma := db; connections := cs; tokenBuffer := tb';
              sockets := ss; logger := lg' |}).
Proof. by intros -> ->. Qed.

Lemma handleToken_run (m : TokenMessage) (w : World) :
  Hub.handleToken m w =
    (Ok (), {| prisma := prisma w; connections := connections w;
               tokenBuffer := tokenBuffer_after w m;
               sockets := sockets w;
               logger := logger w ++ [logged_for w m] |}).
Proof.
  destruct m as [r p q c]; destruct w as [db cs tb ss lg].
  unfold Hub.handleToken, Hub.broadcastToTelao, tokenBuffer_after, logged_for,
    expected, stream, has. run_M.
  destruct (tb !! p) as [rb|] eqn:Hp; simpl.
  - rewrite ?Hp; simpl. destruct (rb !! r) as [ts|] eqn:Hr; simpl.
    + rewrite ?Hp; simpl; rewrite ?Hr; simpl.
      repeat case_bool_decide; try congruence; simpl.
      * apply run_eq; [|done]. by_key p; [|done].
        rewrite ?Hp. f_equal. by_key r; done.
      * rewrite lookup_alter_eq, Hp. simpl. rewrite lookup_alter_eq, Hr. simpl.
        rewrite length_app. simpl.
        apply run_eq; [|repeat f_equal; lia].
        by_key p; [|done]. rewrite ?Hp; simpl. f_equal. by_key r; [|done].
        by rewrite Hr.
    + rewrite lookup_alter_eq, Hp. simpl. rewrite lookup_insert_eq. simpl.
      repeat case_bool_decide; try congruence; simpl.
      * apply run_eq; [|done]. by_key p; [|done]. by rewrite ?Hp.
      * rewrite !lookup_alter_eq, Hp. simpl.
        rewrite lookup_alter_eq, lookup_insert_eq. simpl.
        apply run_eq; [|repeat f_equal; lia].
        by_key p; [|done]. rewrite ?Hp; simpl. f_equal. by by_key r.
  - rewrite lookup_insert_eq. simpl. rewrite lookup_empty. simpl.
    rewrite lookup_alter_eq, lookup_insert_eq. simpl. rewrite lookup_insert_eq. simpl.
    repeat case_bool_decide; try congruence; simpl.
    + apply run_eq; [|done]. by by_key p.
    + rewrite !lookup_alter_eq, lookup_insert_eq. simpl.
      rewrite lookup_alter_eq, lookup_insert_eq. simpl.
      apply run_eq; [|repeat f_equal; lia].
      by_key p; [|done]. simpl. f_equal. by by_key r.
Qed.

Lemma handleToken_returns (m : TokenMessage) (w : World) :
  eval (Hub.handleToken m) w = Ok ().
Proof. unfold eval. by rewrite handleToken_run. Qed.

(** Every stream after a token message, read off the buffer. *)
Lemma stream_handleToken (m : TokenMessage) (w : World) (p : string) (r : Z) :
  stream (exec (Hub.handleToken m) w) p r =
    if bool_decide (p = tok_participant_id m ∧ r = tok_round m) then
      if bool_decide (tok_seq m = expected w m)
      then stream w p r ++ [tok_content m] else stream w p r
    else stream w p r.
Proof.
  unfold exec. rewrite handleToken_run. unfold stream at 1. simpl.
  unfold tokenBuffer_after.
  destruct (decide (p = tok_participant_id m)) as [->|Hp].
  - rewrite lookup_insert_eq. simpl.
    destruct (decide (r = tok_round m)) as [->|Hr].
    + rewrite lookup_insert_eq. simpl.
      by rewrite (bool_decide_eq_true_2 (_ ∧ _)) by auto.
    + rewrite lookup_insert_ne by done.
      rewrite (bool_decide_eq_false_2 (_ ∧ _)) by (intros [_ ?]; contradiction).
      unfold stream. by destruct (tokenBuffer w !! tok_participant_id m).
  - rewrite lookup_insert_ne by done.
    by rewrite (bool_decide_eq_false_2 (_ ∧ _)) by (intros [? _]; contradiction).
Qed.

(** A rejected message changes the buffer only by materialising the
    (empty) arrays it looked up: if they were there, nothing changes. *)
Lemma handleToken_rejected_same_buffer (m : TokenMessage) (w : World) :
  tok_seq m ≠ expected w m →
  is_Some (tokenBuffer w !! tok_participant_id m ≫= (.!! tok_round m)) →
  tokenBuffer (exec (Hub.handleToken m) w) = tokenBuffer w.
Proof.
  intros Hseq [ts Hts]. unfold exec. rewrite handleToken_run. simpl.
  unfold tokenBuffer_after, stream. rewrite bool_decide_eq_false_2 by done.
  destruct (tokenBuffer w !! tok_participant_id m) as [rb|] eqn:Hp; [|done].
  simpl in *. rewrite Hts. simpl.
  rewrite (insert_id rb) by done. by apply insert_id.
Qed.

Lemma submit_returns (p : string) (r : Z) (cs : list string) :
  ∀ seq w, eval (submit p r seq cs) w = Ok ().
Proof.
  induction cs as [|c cs IH]; intros seq w; [done|].
  unfold eval in *. simpl. unfold mbind, M_bind.
  rewrite handleToken_run. apply IH.
Qed.

(** Fragments submitted in order, from the expected number on, are all
    appended. *)
Lemma stream_submit (p : string) (r : Z) (cs : list string) :
  ∀ w, stream (exec (submit p r (Z.of_nat (length (stream w p r))) cs) w) p r
       = stream w p r ++ cs.
Proof.
  induction cs as [|c cs IH]; intros w.
  - by rewrite app_nil_r.
  - unfold exec. simpl. unfold mbind, M_bind.
    set (m := {| tok_round := r; tok_participant_id := p;
                 tok_seq := Z.of_nat (length (stream w p r)); tok_content := c |}).
    destruct (Hub.handleToken m w) as [res w1] eqn:Hrun.
    pose proof (handleToken_returns m w) as Hres.
    pose proof (stream_handleToken m w p r) as Hst.
    unfold eval, exec in Hres, Hst. rewrite Hrun in Hres, Hst. simpl in Hres, Hst.
    subst res. rewrite bool_decide_eq_true_2 in Hst by done.
    rewrite bool_decide_eq_true_2 in Hst by done.
    specialize (IH w1). unfold exec in IH.
    rewrite Hst in IH. rewrite length_app in IH. simpl in IH.
    replace (Z.of_nat (length (stream w p r)) + 1)
      with (Z.of_nat (length (stream w p r) + 1)) by lia.
    rewrite IH. by rewrite <- app_assoc.
Qed.

(** The snapshot of a round holds, for each participant, the array the
    buffer has for that round. *)
Lemma getCurrentRoundTokens_lookup (r : Z) (w : World) (p : string) :
  ∃ snap, Hub.getCurrentRoundTokens r w = (Ok snap, w)
          ∧ snap !! p = tokenBuffer w !! p ≫= (.!! r).
Proof.
  eexists. split; [reflexivity|]. by rewrite lookup_omap.
Qed.

(** C1.  Token Sequencer append contract.  For every world and token
    message, with [p] and [r] the message's participant and round:
    [handleToken] returns normally; the content is appended to the stream
    of [(p, r)] if and only if [seq] equals the current length of that
    stream (which is 0 for a pair never seen); with any other [seq] the
    stream of [(p, r)] is left as it was, and so is every other stream (a
    rejected message at most materialises the empty arrays it looked up:
    when they exist already the whole buffer is unchanged); the streams of
    all other pairs are never touched.  Consequently, submitting the
    fragments [cs] with [seq] 0, 1, ..., n-1 to an empty stream makes the
    snapshot of round [r] map [p] to exactly [cs]. *)
Theorem token_sequencer_append_contract
    (w : World) (m : TokenMessage) (cs : list string) :
  let p := tok_participant_id m in
  let r := tok_round m in
  let w' := exec (Hub.handleToken m) w in
  eval (Hub.handleToken m) w = Ok ()
  ∧ (tokenBuffer w !! p ≫= (.!! r) = None → expected w m = 0)
  ∧ (tok_seq m = expected w m ↔ stream w' p r = stream w p r ++ [tok_content m])
  ∧ (tok_seq m ≠ expected w m ↔ stream w' p r = stream w p r)
  ∧ (tok_seq m ≠ expected w m → ∀ p' r', stream w' p' r' = stream w p' r')
  ∧ (tok_seq m ≠ expected w m →
       is_Some (tokenBuffer w !! p ≫= (.!! r)) → tokenBuffer w' = tokenBuffer w)
  ∧ (∀ p' r', p' ≠ p ∨ r' ≠ r → stream w' p' r' = stream w p' r')
  ∧ (stream w p r = [] →
       ∃ snap w2,
         (submit p r 0 cs;; Hub.getCurrentRoundTokens r) w = (Ok snap, w2)
         ∧ default [] (snap !! p) = cs
         ∧ (cs ≠ [] → snap !! p = Some cs)).
Proof.
  intros p r w'.
  assert (Hgrow : stream w p r ++ [tok_content m] ≠ stream w p r).
  { intros Heq. apply (f_equal length) in Heq. rewrite length_app in Heq.
    simpl in Heq. lia. }
  assert (Hpr : stream w' p r =
                if bool_decide (tok_seq m = expected w m)
                then stream w p r ++ [tok_content m] else stream w p r).
  { unfold w'. rewrite stream_handleToken.
    by rewrite (bool_decide_eq_true_2 (_ ∧ _)) by auto. }
  split; [apply handleToken_returns|].
  split; [intros Hnone; unfold expected, stream; fold p r; by rewrite Hnone|].
  split; [|split; [|split; [|split; [|split]]]].
  - rewrite Hpr. case_bool_decide; split; try done.
  - rewrite Hpr. case_bool_decide; split; done.
  - intros Hseq p' r'. unfold w'. rewrite stream_handleToken.
    rewrite (bool_decide_eq_false_2 (tok_seq m = _)) by done.
    by destruct (bool_decide (_ ∧ _)).
  - apply handleToken_rejected_same_buffer.
  - intros p' r' Hne. unfold w'. rewrite stream_handleToken.
    rewrite (bool_decide_eq_false_2 (_ ∧ _)); [done|].
    intros [-> ->]. by destruct Hne.
  - intros Hempty.
    pose proof (stream_submit p r cs w) as Hs.
    pose proof (submit_returns p r cs 0 w) as Hr.
    rewrite Hempty in Hs. simpl in Hs. change (Z.of_nat 0) with 0 in Hs.
    unfold exec in Hs. unfold eval in Hr.
    unfold mbind, M_bind.
    destruct (submit p r 0 cs w) as [res w2]. simpl in Hs, Hr. subst res.
    destruct (getCurrentRoundTokens_lookup r w2 p) as (snap & Hsnap & Hlook).
    exists snap, w2. split; [done|].
    assert (Hd : default [] (snap !! p) = cs) by (rewrite Hlook; exact Hs).
    split; [done|].
    intros Hcs. destruct (snap !! p); simpl in Hd; by subst.
Qed.

(** The end-to-end scenario of the specification: tokens 0..2 with
    contents "a", "b", "c"; then a gap (seq 5) and a replay (seq 0) in
    another round, both dropped. *)
Example snapshot_a_b_c :
  eval (submit "alice" 1 0 ["a"; "b"; "c"];; Hub.getCurrentRoundTokens 1) empty_world
  = Ok {[ "alice" := ["a"; "b"; "c"] ]}.
Proof. vm_compute. reflexivity. Qed.

Example gap_and_replay_are_dropped :
  let gap := {| tok_round := 2; tok_participant_id := "alice";
                tok_seq := 5; tok_content := "x" |} in
  let first := {| tok_round := 2; tok_participant_id := "alice";
                  tok_seq := 0; tok_content := "a" |} in
  stream (exec (Hub.handleToken gap) empty_world) "alice" 2 = []
  ∧ stream (exec (Hub.handleToken first;; Hub.handleToken first) empty_world)
      "alice" 2 = ["a"].
Proof. vm_compute. done. Qed.

(** A dropped message for a pair never seen leaves its empty arrays
    behind. *)
Example dropped_token_creates_empty_arrays :
  tokenBuffer (exec (Hub.handleToken
                       {| tok_round := 2; tok_participant_id := "alice";
                          tok_seq := 5; tok_content := "x" |}) empty_world)
  = {[ "alice" := {[ 2 := [] ]} ]}.
Proof. vm_compute. reflexivity. Qed.

(** ** Broadcast *)

Lemma send_or_log_run (payload : Payload) (conn : ParticipantConnection) (w : World) :
  ∃ lg, send_or_log payload conn w =
    (Ok (), {| prisma := prisma w; connections := connections w;
               tokenBuffer := tokenBuffer w;
               sockets :=
                 match sockets w !! ws conn with
                 | Some so =>
                     if WebSocket.sendThrows so then sockets w
                     else <[ws conn := after_writes 1 payload so]> (sockets w)
                 | None => sockets w
                 end;
               logger := lg |}).
Proof.
  destruct w as [db cs tb ss lg]. unfold send_or_log, ws_send, after_writes. run_M.
  destruct (ss !! ws conn) as [so|]; simpl; [|by eexists].
  destruct (WebSocket.sendThrows so); simpl; by eexists.
Qed.

Lemma after_writes_0 (p : Payload) (so : WebSocket.t) : after_writes 0 p so = so.
Proof.
  unfold after_writes. destruct so as [[] snt cl]; simpl; [done|].
  by rewrite app_nil_r.
Qed.

Lemma after_writes_S (n : nat) (p : Payload) (so : WebSocket.t) :
  after_writes n p (after_writes 1 p so) = after_writes (S n) p so.
Proof.
  unfold after_writes. destruct so as [[] snt cl]; simpl; [done|].
  by rewrite <- app_assoc.
Qed.

(** The loop of [broadcast] over any list of connections: it never
    throws, it touches nothing but sockets and log, and each socket gets
    the payload once per connection that holds it, unless its [send]
    throws. *)
Lemma for_each_send (payload : Payload) (conns : list ParticipantConnection) :
  ∀ w, let w' := exec (for_each conns (λ conn,
                    try_catch (ws_send (ws conn) payload)
                      (λ _, log error_level "Broadcast failed" None))) w in
    eval (for_each conns (λ conn,
            try_catch (ws_send (ws conn) payload)
              (λ _, log error_level "Broadcast failed" None))) w = Ok ()
    ∧ prisma w' = prisma w ∧ connections w' = connections w
    ∧ tokenBuffer w' = tokenBuffer w
    ∧ ∀ r, sockets w' !! r
           = after_writes (deliveries conns r) payload <$> sockets w !! r.
Proof.
  induction conns as [|conn conns IH]; intros w; simpl.
  - repeat split; try done. intros r. unfold exec, deliveries. simpl.
    destruct (sockets w !! r) as [so|]; simpl; [|done]. by rewrite after_writes_0.
  - unfold exec, eval. simpl. unfold mbind, M_bind.
    destruct (send_or_log_run payload conn w) as [lg Hrun].
    unfold send_or_log in Hrun. rewrite Hrun. clear Hrun.
    match goal with |- context [for_each _ _ ?w1] => specialize (IH w1) end.
    destruct IH as (Hev & Hdb & Hcs & Htb & Hso).
    unfold exec, eval in *. simpl in *.
    repeat split; try done. intros r. rewrite Hso. unfold deliveries.
    rewrite filter_cons.
    destruct (sockets w !! ws conn) as [so|] eqn:Hws;
      [destruct (WebSocket.sendThrows so) eqn:Hthrow|];
      (destruct (decide (ws conn = r)) as [<-|Hne]; simpl; [|try done]).
    + rewrite Hws. simpl. unfold after_writes. by rewrite Hthrow.
    + rewrite lookup_insert_eq, Hws. simpl. by rewrite after_writes_S.
    + by rewrite lookup_insert_ne.
    + by rewrite Hws.
Qed.

Lemma deliveries_pos (w : World) (connId : string) (conn : ParticipantConnection) :
  connections w !! connId = Some conn →
  (0 < deliveries (map_to_list (connections w)).*2 (ws conn))%nat.
Proof.
  intros Hin. unfold deliveries.
  assert (Hel : conn ∈ filter (λ c, ws c = ws conn) (map_to_list (connections w)).*2).
  { apply list_elem_of_filter. split; [done|].
    apply list_elem_of_fmap. exists (connId, conn). split; [done|].
    by apply elem_of_map_to_list. }
  destruct (filter _ _); [by apply elem_of_nil in Hel|simpl; lia].
Qed.

(** C9.  [broadcast] serialises the message once ([payload]) and attempts
    one write of that payload per registered connection.  It never throws.
    A socket whose [send] throws receives nothing and stops nobody else:
    every socket held by a registered connection whose [send] works ends
    up with the payload appended, once per connection that holds it (at
    least once), and sockets are otherwise unchanged. *)
Theorem broadcast_isolates_failures (message : ServerMessage) (w : World) :
  let payload := JSON_stringify message in
  let conns := (map_to_list (connections w)).*2 in
  let w' := exec (Hub.broadcast message) w in
  eval (Hub.broadcast message) w = Ok ()
  ∧ connections w' = connections w
  ∧ (∀ r, sockets w' !! r
          = after_writes (deliveries conns r) payload <$> sockets w !! r)
  ∧ (∀ connId conn so,
       connections w !! connId = Some conn →
       sockets w !! ws conn = Some so →
       WebSocket.sendThrows so = false →
       (0 < deliveries conns (ws conn))%nat
       ∧ sockets w' !! ws conn
         = Some (WebSocket.mk false
                   (WebSocket.sent so ++ replicate (deliveries conns (ws conn)) payload)
                   (WebSocket.closed so)))
  ∧ (∀ r so, sockets w !! r = Some so → WebSocket.sendThrows so = true →
             sockets w' !! r = Some so).
Proof.
  intros payload conns w'.
  destruct (for_each_send payload conns w) as (Hev & _ & Hcs & _ & Hso).
  split; [exact Hev|]. split; [exact Hcs|]. split; [exact Hso|]. split.
  - intros connId conn so Hconn Hws Hthrow. split; [by eapply deliveries_pos|].
    unfold w', Hub.broadcast. fold payload.
    change (exec _ w) with
      (exec (for_each conns (λ conn, try_catch (ws_send (ws conn) payload)
                (λ _, log error_level "Broadcast failed" None))) w).
    rewrite Hso, Hws. simpl. unfold after_writes. by rewrite Hthrow.
  - intros r so Hws Hthrow. unfold w', Hub.broadcast. fold payload.
    change (exec _ w) with
      (exec (for_each conns (λ conn, try_catch (ws_send (ws conn) payload)
                (λ _, log error_level "Broadcast failed" None))) w).
    rewrite Hso, Hws. simpl. unfold after_writes. by rewrite Hthrow.
Qed.

(** The scenario of the specification: three connections, the write to
    one of them throws, the other two receive the event. *)
Example broadcast_to_three_one_throws :
  let w' := exec (Hub.broadcast (msg_heartbeat 7)) three_connections in
  WebSocket.sent <$> sockets w' !! "ws-1" = Some [JSON (msg_heartbeat 7)]
  ∧ WebSocket.sent <$> sockets w' !! "ws-2" = Some []
  ∧ WebSocket.sent <$> sockets w' !! "ws-3" = Some [JSON (msg_heartbeat 7)].
Proof. vm_compute. done. Qed.

(** ** Token messages, connections and rounds *)

(** C10.  Token handling never consults round state.  Whatever the store
    holds ([db] is arbitrary: no round with the message's index, a round
    never started, an ended one), a token message whose [seq] is the
    current length of the buffered stream of its participant and round is
    accepted: the buffer for that pair exists afterwards (it is created on
    the first token) and holds the old stream followed by the content.
    The buffer left behind does not depend on the store at all. *)
Theorem handleToken_ignores_round_state
    (w : World) (m : TokenMessage) (db : Prisma) :
  tok_seq m = expected w m →
  let w0 := with_prisma (λ _, db) w in
  let w' := exec (Hub.handleToken m) w0 in
  eval (Hub.handleToken m) w0 = Ok ()
  ∧ tokenBuffer w' !! tok_participant_id m ≫= (.!! tok_round m)
    = Some (stream w (tok_participant_id m) (tok_round m) ++ [tok_content m])
  ∧ tokenBuffer w' = tokenBuffer (exec (Hub.handleToken m) w)
  ∧ prisma w' = db.
Proof.
  intros Hseq w0 w'. unfold w', w0, exec, eval. rewrite !handleToken_run. simpl.
  split; [done|]. split; [|done].
  unfold tokenBuffer_after. simpl. rewrite lookup_insert_eq. simpl.
  rewrite lookup_insert_eq.
  change (expected (with_prisma (λ _, db) w) m) with (expected w m).
  by rewrite bool_decide_eq_true_2.
Qed.

Lemma handleToken_ignores_round_state_witness :
  let m := {| tok_round := 42; tok_participant_id := "alice";
              tok_seq := 0; tok_content := "a" |} in
  Hub.findRoundByIndex (round (prisma empty_world)) 42 = None
  ∧ tokenBuffer (exec (Hub.handleToken m) empty_world) !! "alice" ≫= (.!! 42)
    = Some ["a"].
Proof.
  split; [reflexivity|].
  exact (proj1 (proj2 (handleToken_ignores_round_state empty_world
    {| tok_round := 42; tok_participant_id := "alice";
       tok_seq := 0; tok_content := "a" |}
    (prisma empty_world) eq_refl))).
Defined.

(** C3, as the specification has it, fails: a token message is processed
    on a connection that was never bound, and on a connection bound to
    another participant.  Here "conn-9" is unknown to the registry and
    "conn-1" is bound to "alice"; both deliver a token in the name of
    "bob", and both are appended to the buffer of "bob". *)
Lemma token_from_unbound_connection_is_appended :
  let m := {| tok_round := 1; tok_participant_id := "bob";
              tok_seq := 0; tok_content := "x" |} in
  connections alice_connected !! "conn-9" = None
  ∧ participantId <$> connections alice_connected !! "conn-1" = Some "alice"
  ∧ tokenBuffer (exec (Hub.handleMessage plain_compare 0 "conn-9" "ws-2" (token m))
                   alice_connected)
    = {[ "bob" := {[ 1 := ["x"] ]} ]}
  ∧ tokenBuffer (exec (Hub.handleMessage plain_compare 0 "conn-1" "ws-1" (token m))
                   alice_connected)
    = {[ "bob" := {[ 1 := ["x"] ]} ]}.
Proof. vm_compute. done. Qed.

(** C3, amended.  The handling of a token message does not look at the
    connection it arrives on: the outcome is that of [handleToken] on the
    message alone, whatever the connection identifier, its socket, and the
    registry hold (bound or not, bound to this participant or to another).
    The registry is left as it was, and the buffer after the message is
    the same for every registry. *)
Theorem token_handling_ignores_the_connection
    (bcrypt_compare : string → string → bool) (now : Z)
    (connId : string) (ws : WebSocketRef) (m : TokenMessage) (w : World)
    (registry : gmap string ParticipantConnection) :
  Hub.handleMessage bcrypt_compare now connId ws (token m) w = Hub.handleToken m w
  ∧ connections (exec (Hub.handleToken m) w) = connections w
  ∧ tokenBuffer (exec (Hub.handleToken m) (with_connections (λ _, registry) w))
    = tokenBuffer_after w m
  ∧ tokenBuffer (exec (Hub.handleToken m) w) = tokenBuffer_after w m.
Proof.
  split; [reflexivity|]. unfold exec. rewrite !handleToken_run. simpl.
  repeat split.
Qed.

(** C4: what an accepted token triggers.  At this input -- "alice" is
    registered on "conn-1" and sends her first token -- the token is
    appended, the [token_update] event is built with the five fields of the
    specification, and it is handed to [broadcastToTelao], which writes a
    debug record to the log and nothing to any socket. *)
Theorem accepted_token_update_is_only_logged :
  let m := {| tok_round := 1; tok_participant_id := "alice";
              tok_seq := 0; tok_content := "a" |} in
  let w' := exec (Hub.handleToken m) alice_connected in
  stream w' "alice" 1 = ["a"]
  ∧ logger w' = [ {| level := debug; text := "Broadcasting to telao";
                     attached := Some (msg_token_update "alice" 1 0 "a" 1) |} ]
  ∧ sockets w' = sockets alice_connected
  ∧ WebSocket.sent <$> sockets w' !! "ws-1" = Some [].
Proof.
  intros m w'. unfold w', exec. rewrite handleToken_run. vm_compute. done.
Qed.

(** No token message, accepted or not, writes to a socket; the log gains
    the [token_update] event exactly for an accepted one. *)
Lemma handleToken_writes_no_socket (m : TokenMessage) (w : World) :
  sockets (exec (Hub.handleToken m) w) = sockets w
  ∧ logger (exec (Hub.handleToken m) w) = logger w ++ [logged_for w m].
Proof. unfold exec. by rewrite handleToken_run. Qed.

(** ** The connection registry: [handleRegister] *)

(** The registry after a register message: the connection identifier is
    bound (afresh or over its previous binding) when the message is
    admitted, and nothing else changes; this holds whether or not the
    reply can be written to the socket. *)
Lemma handleRegister_connections
    (bcrypt_compare : string → string → bool) (now : Z)
    (connId : string) (ws : WebSocketRef) (message : RegisterMessage) (w : World) :
  connections (exec (Hub.handleRegister bcrypt_compare now connId ws message) w) =
    match admitted bcrypt_compare message w with
    | Some s => <[connId := binding now ws message s]> (connections w)
    | None => connections w
    end.
Proof.
  destruct w as [db cs tb ss lg].
  unfold exec, admitted, binding, Hub.handleRegister, ws_send. run_M.
  destruct (ss !! ws) as [so|] eqn:Hws;
    [destruct (WebSocket.sendThrows so) eqn:Hthrow|];
    (destruct (Hub.findActiveSession (session db)) as [s|]; simpl;
     [destruct (bcrypt_compare (reg_pin message) (Session.pinHash s)); simpl|]);
    rewrite ?Hws; simpl; rewrite ?Hthrow; simpl;
    rewrite ?Hws; simpl; rewrite ?Hthrow; simpl; done.
Qed.

(** The reply to a register message, on a socket that can be written. *)
Lemma handleRegister_reply
    (bcrypt_compare : string → string → bool) (now : Z)
    (connId : string) (ws : WebSocketRef) (message : RegisterMessage) (w : World)
    (so : WebSocket.t) :
  sockets w !! ws = Some so → WebSocket.sendThrows so = false →
  eval (Hub.handleRegister bcrypt_compare now connId ws message) w = Ok ()
  ∧ sockets (exec (Hub.handleRegister bcrypt_compare now connId ws message) w) !! ws =
      Some (after_writes 1
              (JSON_stringify
                 match Hub.findActiveSession (session (prisma w)) with
                 | None => msg_error "No active session"
                 | Some s =>
                     if bcrypt_compare (reg_pin message) (Session.pinHash s)
                     then msg_registered (Session.id s)
                     else msg_error "Invalid PIN"
                 end) so).
Proof.
  intros Hws Hthrow. destruct w as [db cs tb ss lg]. simpl in Hws.
  unfold exec, eval, after_writes, Hub.handleRegister, ws_send. run_M.
  rewrite Hthrow.
  destruct (Hub.findActiveSession (session db)) as [s|]; simpl.
  - destruct (bcrypt_compare (reg_pin message) (Session.pinHash s)); simpl;
      rewrite Hws; simpl; rewrite Hthrow; simpl; by rewrite lookup_insert_eq.
  - rewrite Hws; simpl; rewrite Hthrow; simpl. by rewrite lookup_insert_eq.
Qed.

(** C5, as the specification has it, fails twice.  "alice" registers on
    "conn-1", registers again on the same connection -- which succeeds
    with a second [registered] reply instead of failing with
    [DuplicateBinding] -- and then registers on "conn-2": both
    connections stay bound to her. *)
Lemma rebinding_succeeds_and_old_connection_stays :
  let reg c s := Hub.handleRegister plain_compare 0 c s alice_registers in
  let w1 := exec (reg "conn-1" "ws-1") session_open in
  let w2 := exec (reg "conn-1" "ws-1") w1 in
  let w3 := exec (reg "conn-2" "ws-2") w2 in
  eval (reg "conn-1" "ws-1") w1 = Ok ()
  ∧ WebSocket.sent <$> sockets w2 !! "ws-1"
    = Some [JSON (msg_registered "s1"); JSON (msg_registered "s1")]
  ∧ participantId <$> connections w3 !! "conn-1" = Some "alice"
  ∧ participantId <$> connections w3 !! "conn-2" = Some "alice".
Proof. vm_compute. done. Qed.

(** C5, amended.  A register message is admitted when an active session
    exists and the PIN matches.  An admitted register binds its connection
    identifier to the participant whether or not that connection was bound
    before (the earlier binding is replaced; there is no [DuplicateBinding]
    failure) and leaves every other connection's binding as it was, also
    those of the same participant; a register that is not admitted changes
    no binding.  So a connection identifier has at most one binding, its
    latest, while a participant may be bound to several connections. *)
Theorem register_binds_by_overwrite
    (bcrypt_compare : string → string → bool) (now : Z)
    (connId : string) (ws : WebSocketRef) (message : RegisterMessage) (w : World) :
  let w' := exec (Hub.handleRegister bcrypt_compare now connId ws message) w in
  connections w' !! connId =
    match admitted bcrypt_compare message w with
    | Some s => Some (binding now ws message s)
    | None => connections w !! connId
    end
  ∧ (∀ other, other ≠ connId → connections w' !! other = connections w !! other).
Proof.
  intros w'. unfold w'. rewrite handleRegister_connections.
  destruct (admitted bcrypt_compare message w) as [s|].
  - split; [by rewrite lookup_insert_eq|].
    intros other Hne. by rewrite lookup_insert_ne.
  - done.
Qed.

(** ** Completion metrics: [handleComplete] *)

(** The store after a complete message: the row of (the round found,
    the participant) is updated when there is one, created when there is
    none and the participant has a row, and otherwise nothing is written;
    the handler returns normally in every case. *)
Lemma handleComplete_prisma (m : CompleteMessage) (w : World) :
  eval (Hub.handleComplete m) w = Ok ()
  ∧ prisma (exec (Hub.handleComplete m) w) =
      match Hub.findRoundByIndex (round (prisma w)) (cmp_round m) with
      | Some rd =>
          let key := (Round.id rd, cmp_participant_id m) in
          match metrics (prisma w) !! key with
          | Some row => with_metrics <[key := updated row m]> (prisma w)
          | None =>
              if has (participant (prisma w)) (cmp_participant_id m)
              then with_metrics <[key := metrics_row rd m]> (prisma w)
              else prisma w
          end
      | None => prisma w
      end.
Proof.
  destruct w as [db cs tb ss lg].
  unfold exec, eval, Hub.handleComplete, Hub.upsertMetrics, Hub.broadcastToTelao,
    metrics_row, updated.
  run_M.
  destruct (Hub.findRoundByIndex (round db) (cmp_round m)) as [rd|]; [|done]. simpl.
  destruct (metrics db !! (Round.id rd, cmp_participant_id m)) as [row|]; [done|].
  simpl. by destruct (has (participant db) (cmp_participant_id m)).
Qed.

(** When the store refuses the row -- no metrics row under the key and no
    row of the participant -- the failure is caught and logged. *)
Lemma handleComplete_refused (m : CompleteMessage) (w : World) (rd : Round.t) :
  Hub.findRoundByIndex (round (prisma w)) (cmp_round m) = Some rd →
  metrics (prisma w) !! (Round.id rd, cmp_participant_id m) = None →
  participant (prisma w) !! cmp_participant_id m = None →
  Hub.handleComplete m w
  = (Ok (), with_logger (λ ls, ls ++ [{| level := error_level;
                                         text := "Failed to record completion";
                                         attached := None |}]) w).
Proof.
  intros Hrd Hrow Hp.
  unfold Hub.handleComplete, Hub.upsertMetrics, has. run_M.
  rewrite Hrd. simpl. rewrite Hrow. simpl. by rewrite Hp.
Qed.

(** The row a complete message leaves under its key when the participant
    has a row. *)
Lemma handleComplete_row (m : CompleteMessage) (w : World) (rd : Round.t) :
  Hub.findRoundByIndex (round (prisma w)) (cmp_round m) = Some rd →
  is_Some (participant (prisma w) !! cmp_participant_id m) →
  let key := (Round.id rd, cmp_participant_id m) in
  metrics (prisma (exec (Hub.handleComplete m) w)) !! key
  = Some (match metrics (prisma w) !! key with
          | Some row => updated row m
          | None => metrics_row rd m
          end)
  ∧ (∀ k, k ≠ key →
       metrics (prisma (exec (Hub.handleComplete m) w)) !! k = metrics (prisma w) !! k)
  ∧ round (prisma (exec (Hub.handleComplete m) w)) = round (prisma w)
  ∧ participant (prisma (exec (Hub.handleComplete m) w)) = participant (prisma w).
Proof.
  intros Hrd [p Hp] key.
  destruct (handleComplete_prisma m w) as [_ ->]. rewrite Hrd. simpl. fold key.
  unfold has. rewrite Hp.
  destruct (metrics (prisma w) !! key) as [row|]; simpl;
    (split; [by rewrite lookup_insert_eq|]);
    (split; [|done]); intros k Hk; by rewrite lookup_insert_ne.
Qed.

(** C8.  At a store where a round with the message's index exists and the
    participant has a row, a complete message records for (that round, the
    participant) a metrics row whose [tpsAvg] is [tokens / duration_ms *
    1000] (in binary64 arithmetic) when [duration_ms > 0] and null
    otherwise; [complete{tokens: 3, duration_ms: 1000}] records 3.0.  A
    second complete message for the same round and participant overwrites
    the token count, the duration, the throughput and the model
    information; the latency to the first token is overwritten only when
    the second message carries one: when it carries none, the latency the
    first message stored stays in the row, where the second message alone
    would have stored null. *)
Theorem resubmitted_complete_keeps_a_stored_latency
    (w : World) (m m2 : CompleteMessage) (rd : Round.t) :
  Hub.findRoundByIndex (round (prisma w)) (cmp_round m) = Some rd →
  is_Some (participant (prisma w) !! cmp_participant_id m) →
  cmp_round m2 = cmp_round m →
  cmp_participant_id m2 = cmp_participant_id m →
  let key := (Round.id rd, cmp_participant_id m) in
  let w1 := exec (Hub.handleComplete m) w in
  let w2 := exec (Hub.handleComplete m2) w1 in
  Metrics.tpsAvg <$> metrics (prisma w1) !! key =
    Some (if (0 <? cmp_duration_ms m)%float
          then Some (cmp_tokens m / cmp_duration_ms m * 1000)%float
          else None)
  ∧ Metrics.tokens <$> metrics (prisma w2) !! key = Some (cmp_tokens m2)
  ∧ Metrics.durationMs <$> metrics (prisma w2) !! key = Some (cmp_duration_ms m2)
  ∧ Metrics.tpsAvg <$> metrics (prisma w2) !! key =
      Some (if (0 <? cmp_duration_ms m2)%float
            then Some (cmp_tokens m2 / cmp_duration_ms m2 * 1000)%float
            else None)
  ∧ Metrics.modelInfo <$> metrics (prisma w2) !! key = Some (cmp_model_info m2)
  ∧ Metrics.latencyFirstTokenMs <$> metrics (prisma w2) !! key =
      match cmp_latency_ms_first_token m2 with
      | Some latency => Some (Some latency)
      | None => Metrics.latencyFirstTokenMs <$> metrics (prisma w1) !! key
      end
  ∧ (metrics (prisma w) !! key = None →
       metrics (prisma w1) !! key = Some (metrics_row rd m)
       ∧ Metrics.latencyFirstTokenMs <$>
           metrics (prisma (exec (Hub.handleComplete m2) w)) !! key
         = Some (cmp_latency_ms_first_token m2))
  ∧ (∀ r p l i,
       Hub.tpsAvg_of {| cmp_round := r; cmp_participant_id := p; cmp_tokens := 3;
                        cmp_latency_ms_first_token := l; cmp_duration_ms := 1000;
                        cmp_model_info := i |} = Some 3%float).
Proof.
  intros Hrd Hp Hr Hid key w1 w2.
  destruct (handleComplete_row m w rd Hrd Hp) as (H1 & _ & Hrounds & Hps).
  fold key w1 in H1, Hrounds, Hps.
  assert (Hrd1 : Hub.findRoundByIndex (round (prisma w1)) (cmp_round m2) = Some rd)
    by (by rewrite Hrounds, Hr).
  assert (Hp1 : is_Some (participant (prisma w1) !! cmp_participant_id m2))
    by (by rewrite Hps, Hid).
  destruct (handleComplete_row m2 w1 rd Hrd1 Hp1) as (H2 & _).
  rewrite Hid in H2. fold key w2 in H2. rewrite H1 in H2.
  rewrite H2, H1. simpl.
  split; [by destruct (metrics (prisma w) !! key)|].
  do 4 (split; [done|]).
  split; [by destruct (cmp_latency_ms_first_token m2)|].
  split.
  - intros Hnone. rewrite Hnone. split; [done|].
    assert (Hrd2 : Hub.findRoundByIndex (round (prisma w)) (cmp_round m2) = Some rd)
      by (by rewrite Hr).
    assert (Hp2 : is_Some (participant (prisma w) !! cmp_participant_id m2))
      by (by rewrite Hid).
    destruct (handleComplete_row m2 w rd Hrd2 Hp2) as (H3 & _).
    rewrite Hid in H3. fold key in H3. by rewrite H3, Hnone.
  - intros r p l i. reflexivity.
Qed.

Lemma resubmitted_complete_keeps_a_stored_latency_witness :
  let first := with_latency 850 (alice_completes 3 1000) in
  let second := alice_completes 6 2000 in
  let w1 := exec (Hub.handleComplete first) alice_in_round_one in
  let w2 := exec (Hub.handleComplete second) w1 in
  Metrics.tpsAvg <$> metrics (prisma w1) !! ("r1", "alice") = Some (Some 3%float)
  ∧ Metrics.tokens <$> metrics (prisma w2) !! ("r1", "alice") = Some 6%float
  ∧ Metrics.latencyFirstTokenMs <$> metrics (prisma w2) !! ("r1", "alice")
    = Some (Some 850%float).
Proof.
  intros first second.
  pose proof (resubmitted_complete_keeps_a_stored_latency alice_in_round_one
                first second round_one eq_refl (mk_is_Some _ _ eq_refl)
                eq_refl eq_refl) as (H1 & H2 & _ & _ & _ & H3 & _).
  split; [exact H1|]. split; [exact H2 | exact H3].
Defined.

(** The two rows side by side: re-submitted without a latency after a
    message that carried 850 ms, and submitted alone. *)
Example resubmission_without_latency :
  let first := with_latency 850 (alice_completes 3 1000) in
  let second := alice_completes 6 2000 in
  metrics (prisma (exec (Hub.handleComplete first;; Hub.handleComplete second)
                     alice_in_round_one)) !! ("r1", "alice")
  = Some (Metrics.mk "r1" "alice" 6 (Some 850%float) 2000 (Some 3%float) None)
  ∧ metrics (prisma (exec (Hub.handleComplete second) alice_in_round_one))
      !! ("r1", "alice")
    = Some (Metrics.mk "r1" "alice" 6 None 2000 (Some 3%float) None).
Proof. vm_compute. done. Qed.

(** A participant that never registered has no row: the store refuses the
    metrics row and nothing is recorded. *)
Example complete_of_unregistered_participant :
  let w' := exec (Hub.handleComplete (alice_completes 3 1000)) one_round in
  metrics (prisma w') = ∅
  ∧ text <$> logger w' = ["Failed to record completion"].
Proof. vm_compute. done. Qed.

(** ** The round lifecycle: [createRound], [startRound], [stopRound] *)

Lemma broadcast_frame (message : ServerMessage) (w : World) :
  eval (Hub.broadcast message) w = Ok ()
  ∧ prisma (exec (Hub.broadcast message) w) = prisma w.
Proof.
  destruct (for_each_send (JSON_stringify message)
              (map_to_list (connections w)).*2 w) as (Hev & Hdb & _).
  split; [exact Hev | exact Hdb].
Qed.

Lemma find_updateRound (id : string) (f : Round.t → Round.t) (rs : list Round.t) :
  (∀ r, Round.id (f r) = Round.id r) →
  find (λ r, bool_decide (Round.id r = id)) (RoundManager.updateRound id f rs)
  = f <$> find (λ r, bool_decide (Round.id r = id)) rs.
Proof.
  intros Hid. unfold RoundManager.updateRound.
  induction rs as [|r rs IH]; [done|]. simpl.
  destruct (bool_decide (Round.id r = id)) eqn:Hr; simpl.
  - rewrite Hid. by rewrite Hr.
  - by rewrite Hr.
Qed.

Lemma startRound_pending (now : Z) (roundId : string) (w : World) (rd : Round.t) :
  RoundManager.findRound (prisma w) roundId = Some rd →
  Round.startedAt rd = None →
  eval (RoundManager.startRound now roundId) w
    = Ok (RoundManager.set_startedAt now rd)
  ∧ round (prisma (exec (RoundManager.startRound now roundId) w))
    = RoundManager.updateRound roundId (RoundManager.set_startedAt now)
        (round (prisma w)).
Proof.
  intros Hfind Hstart. unfold eval, exec, RoundManager.startRound. run_M.
  rewrite Hfind, Hstart.
  match goal with |- context [Hub.broadcast ?msg ?w1] =>
    destruct (broadcast_frame msg w1) as [Hev Hdb];
    unfold eval, exec in Hev, Hdb;
    destruct (Hub.broadcast msg w1) as [res w2] end.
  simpl in *. subst res. simpl. by rewrite Hdb.
Qed.

Lemma stopRound_active (now : Z) (roundId : string) (w : World) (rd : Round.t) :
  RoundManager.findRound (prisma w) roundId = Some rd →
  is_Some (Round.startedAt rd) → Round.endedAt rd = None →
  eval (RoundManager.stopRound now roundId) w
    = Ok (RoundManager.set_endedAt now rd)
  ∧ round (prisma (exec (RoundManager.stopRound now roundId) w))
    = RoundManager.updateRound roundId (RoundManager.set_endedAt now)
        (round (prisma w)).
Proof.
  intros Hfind [t Hstart] Hend. unfold eval, exec, RoundManager.stopRound. run_M.
  by rewrite Hfind, Hstart, Hend.
Qed.

(** C2.  Round lifecycle failure modes, for a round [rd] found under
    [roundId]: [startRound] on a round that is not pending fails with
    [AlreadyStarted]; [stopRound] on a pending round fails with
    [NotStarted], on an ended round with [AlreadyEnded]; each failing call
    returns the world exactly as it was, timestamps included.  A
    successful start (on a pending round) stores and returns the round
    with [startedAt] set to the current time, a successful stop (on an
    active round) with [endedAt] set. *)
Theorem round_lifecycle_failure_modes
    (now : Z) (roundId : string) (w : World) (rd : Round.t) :
  RoundManager.findRound (prisma w) roundId = Some rd →
  (state_of rd ≠ round_pending →
     RoundManager.startRound now roundId w = (Throw AlreadyStarted, w))
  ∧ (state_of rd = round_pending →
       RoundManager.stopRound now roundId w = (Throw NotStarted, w))
  ∧ (state_of rd = round_ended →
       RoundManager.stopRound now roundId w = (Throw AlreadyEnded, w))
  ∧ (state_of rd = round_pending →
       eval (RoundManager.startRound now roundId) w
         = Ok (RoundManager.set_startedAt now rd)
       ∧ RoundManager.findRound
           (prisma (exec (RoundManager.startRound now roundId) w)) roundId
         = Some (RoundManager.set_startedAt now rd)
       ∧ Round.startedAt (RoundManager.set_startedAt now rd) = Some now)
  ∧ (state_of rd = round_active →
       eval (RoundManager.stopRound now roundId) w
         = Ok (RoundManager.set_endedAt now rd)
       ∧ RoundManager.findRound
           (prisma (exec (RoundManager.stopRound now roundId) w)) roundId
         = Some (RoundManager.set_endedAt now rd)
       ∧ state_of (RoundManager.set_endedAt now rd) = round_ended
       ∧ Round.endedAt (RoundManager.set_endedAt now rd) = Some now).
Proof.
  intros Hfind. unfold state_of.
  split; [|split; [|split; [|split]]].
  - intros Hst. unfold RoundManager.startRound. run_M. rewrite Hfind.
    by destruct (Round.startedAt rd).
  - intros Hst. unfold RoundManager.stopRound. run_M. rewrite Hfind.
    by destruct (Round.startedAt rd), (Round.endedAt rd).
  - intros Hst. unfold RoundManager.stopRound. run_M. rewrite Hfind.
    by destruct (Round.startedAt rd), (Round.endedAt rd).
  - intros Hst.
    assert (Hstart : Round.startedAt rd = None).
    { destruct (Round.startedAt rd); [by destruct (Round.endedAt rd)|done]. }
    destruct (startRound_pending now roundId w rd Hfind Hstart) as [Hev Hdb].
    split; [done|]. split; [|done].
    unfold RoundManager.findRound in *. rewrite Hdb.
    rewrite find_updateRound by done. by rewrite Hfind.
  - intros Hst.
    destruct (Round.startedAt rd) as [t|] eqn:Hstart; [|done].
    destruct (Round.endedAt rd) eqn:Hend; [done|].
    destruct (stopRound_active now roundId w rd Hfind) as [Hev Hdb];
      [by rewrite Hstart|done|].
    split; [done|]. split; [|simpl; by rewrite Hstart].
    unfold RoundManager.findRound in *. rewrite Hdb.
    rewrite find_updateRound by done. by rewrite Hfind.
Qed.

Lemma round_lifecycle_failure_modes_witness :
  RoundManager.stopRound 5 "r1" one_round = (Throw NotStarted, one_round)
  ∧ eval (RoundManager.startRound 5 "r1") one_round
    = Ok (RoundManager.set_startedAt 5 round_one).
Proof.
  pose proof (round_lifecycle_failure_modes 5 "r1" one_round round_one eq_refl)
    as (_ & Hstop & _ & Hstart & _).
  split; [exact (Hstop eq_refl) | exact (proj1 (Hstart eq_refl))].
Defined.

(** The scenario of the specification: a second start fails with
    [AlreadyStarted] and leaves the round as the first start left it; a
    stop, and then a second stop. *)
Example start_twice_stop_twice :
  let w1 := exec (RoundManager.startRound 5 "r1") one_round in
  let w2 := exec (RoundManager.stopRound 9 "r1") w1 in
  RoundManager.startRound 6 "r1" w1 = (Throw AlreadyStarted, w1)
  ∧ Round.startedAt <$> RoundManager.findRound (prisma w1) "r1" = Some (Some 5)
  ∧ Round.endedAt <$> RoundManager.findRound (prisma w2) "r1" = Some (Some 9)
  ∧ RoundManager.stopRound 10 "r1" w2 = (Throw AlreadyEnded, w2)
  ∧ RoundManager.startRound 10 "r1" w2 = (Throw AlreadyStarted, w2).
Proof. vm_compute. done. Qed.

Lemma createRound_run (newId : string) (params : CreateRoundParams) (w : World) :
  RoundManager.createRound newId params w =
    match find (λ s, bool_decide (Session.id s = crp_sessionId params))
               (session (prisma w)) with
    | None => (Throw SessionNotFound, w)
    | Some _ =>
        let rd := created newId params (length (rounds_of w (crp_sessionId params))) in
        (Ok rd, with_logger (λ ls, ls ++ [{| level := info; text := "Round created";
                                             attached := None |}])
                  (with_prisma (with_round (λ rs, rs ++ [rd])) w))
    end.
Proof.
  unfold RoundManager.createRound, RoundManager.findSession, created, rounds_of.
  run_M. by destruct (find _ (session (prisma w))).
Qed.

(** C7, as the specification has it, fails: [createRound] does not ask
    whether the session is active.  The only session of this store has
    ended, and a round is created in it all the same. *)
Lemma createRound_in_ended_session_succeeds :
  Session.status <$> session (prisma session_over) = [ended]
  ∧ eval (RoundManager.createRound "r9" (prompt_only "s0" "p")) session_over
    = Ok (Round.mk "r9" "s0" 1 "p" 400 default_temperature 90000 None false
            None None)
  ∧ Round.id <$> round (prisma (exec (RoundManager.createRound "r9"
                                        (prompt_only "s0" "p")) session_over))
    = ["r9"].
Proof. vm_compute. done. Qed.

(** C7, amended.  [createRound] requires the target session to exist,
    failing with "Session not found" and changing nothing otherwise; the
    status of the session is not looked at.  The new round is appended to
    the store with index one more than the number of rounds the session
    has at that moment (1 for the first), and with no start and no end
    timestamp: it is pending.  Creating again in the same session gives
    the next index. *)
Theorem createRound_contract
    (newId newId2 : string) (params params2 : CreateRoundParams) (w : World) :
  let sid := crp_sessionId params in
  let found := find (λ s, bool_decide (Session.id s = sid)) (session (prisma w)) in
  let rd := created newId params (length (rounds_of w sid)) in
  let w' := exec (RoundManager.createRound newId params) w in
  (found = None → RoundManager.createRound newId params w = (Throw SessionNotFound, w))
  ∧ (is_Some found →
       eval (RoundManager.createRound newId params) w = Ok rd
       ∧ round (prisma w') = round (prisma w) ++ [rd]
       ∧ Round.index rd = Z.of_nat (length (rounds_of w sid)) + 1
       ∧ state_of rd = round_pending
       ∧ Round.startedAt rd = None ∧ Round.endedAt rd = None
       ∧ (crp_sessionId params2 = sid →
            Round.index <$> eval (RoundManager.createRound newId2 params2) w'
            = Ok (Round.index rd + 1))).
Proof.
  intros sid found rd w'. unfold w', exec, eval. rewrite createRound_run.
  fold sid found. split.
  - by intros ->.
  - intros [s Hs]. rewrite Hs. simpl. fold rd.
    repeat (split; [done|]).
    intros Hsame. rewrite createRound_run, Hsame. simpl. fold sid found.
    rewrite Hs. simpl. f_equal. unfold rounds_of. simpl.
    rewrite filter_app, length_app, filter_cons_True by done. simpl. lia.
Qed.

(** ** Votes *)

(** The schema of [POST /votes] checks the range of the score only: a
    score that is not an integer passes it. *)
Lemma CastVoteSchema_accepts_3_5 (w : World) :
  Routes.CastVoteSchema_parse (vote_body 3.5) w = (Ok (vote_body 3.5), w).
Proof. reflexivity. Qed.

(** A score out of range never reaches [castVote]: the route fails in the
    schema. *)
Lemma post_votes_out_of_range (hashVoterId : string → string) (w : World) :
  Routes.post_votes hashVoterId "192.168.1.7" (vote_body 6) w = (Throw ZodError, w).
Proof. reflexivity. Qed.

(** C6.  [castVote] fails with [InvalidScore], changing nothing, for
    every score that is not an integer in [1,5] -- among them 3.5, 0, 6
    and not-a-number -- and does not fail with [InvalidScore] for the
    integers 1 to 5: for those the vote is recorded when the round
    exists. *)
Theorem castVote_rejects_non_integer_scores
    (hashVoterId : string → string) (params : VoteManager.CastVoteParams)
    (w : World) :
  let score := VoteManager.score params in
  let key := (VoteManager.roundId params, hashVoterId (VoteManager.voterId params),
              VoteManager.participantId params) in
  (integer_1_to_5 score = false →
     VoteManager.castVote hashVoterId params w = (Throw InvalidScore, w))
  ∧ (integer_1_to_5 score = true →
       eval (VoteManager.castVote hashVoterId params) w ≠ Throw InvalidScore
       ∧ (is_Some (RoundManager.findRound (prisma w) (VoteManager.roundId params)) →
            Vote.score <$> vote (prisma (exec (VoteManager.castVote hashVoterId params) w))
                             !! key = Some score))
  ∧ Forall (λ s, integer_1_to_5 s = true) [1; 2; 3; 4; 5]%float
  ∧ Forall (λ s, integer_1_to_5 s = false)
      [3.5; 0; 6; 0.5; 5.5; -1; nan; infinity]%float
  ∧ VoteManager.castVote hashVoterId (vote_for_alice 3.5) w = (Throw InvalidScore, w).
Proof.
  intros score key. unfold VoteManager.castVote, eval, exec. fold score. run_M.
  split; [by intros ->|]. split.
  - intros ->. simpl.
    destruct (RoundManager.findRound (prisma w) (VoteManager.roundId params));
      simpl; (split; [done|]).
    + intros _. unfold key. by rewrite lookup_insert_eq.
    + by intros [? ?].
  - split; [|split; [|reflexivity]]; repeat constructor.
Qed.

(** A vote with score 3.5 sent to the route: the schema lets it through,
    and it is [castVote] that refuses it. *)
Example post_votes_3_5 (hashVoterId : string → string) :
  Routes.post_votes hashVoterId "192.168.1.7" (vote_body 3.5) one_round
  = (Throw InvalidScore, one_round).
Proof. reflexivity. Qed.

Example post_votes_4 :
  eval (Routes.post_votes id "192.168.1.7" (vote_body 4)) one_round
  = Ok (Vote.mk "r1" "192.168.1.7" "alice" 4).
Proof. vm_compute. reflexivity. Qed.

(** [POST /rounds] creates rounds in the active session only: without one
    it answers 404 and creates nothing. *)
Lemma post_rounds_needs_active_session
    (newId : string) (body : Routes.CreateRoundBody) (w : World) :
  Hub.findActiveSession (session (prisma w)) = None →
  Routes.post_rounds newId body w = (Ok (Routes.reply_code 404 "No active session"), w).
Proof. intros Hnone. unfold Routes.post_rounds. run_M. by rewrite Hnone. Qed.

(** ** The end-to-end scenario *)

Example end_to_end_run :
  let w' := exec end_to_end session_open in
  eval end_to_end session_open = Ok {[ "alice" := ["a"; "b"; "c"] ]}
  ∧ WebSocket.sent <$> sockets w' !! "ws-1"
    = Some [JSON (msg_registered "s1");
            JSON (msg_challenge "s1" 1 "p" 10 default_temperature 90000 None)]
  ∧ Metrics.tpsAvg <$> metrics (prisma w') !! ("r1", "alice") = Some (Some 3%float).
Proof. vm_compute. done. Qed.

(** * Further properties of the code *)

(** ** Streams of token messages *)

Lemma submit_step (p : string) (r : Z) (seq : Z) (c : string) (cs : list string)
    (w : World) :
  exec (submit p r seq (c :: cs)) w
  = exec (submit p r (seq + 1) cs)
      (exec (Hub.handleToken {| tok_round := r; tok_participant_id := p;
                                tok_seq := seq; tok_content := c |}) w).
Proof.
  unfold exec. simpl. unfold mbind, M_bind. by rewrite handleToken_run.
Qed.

(** X1.  Resending a stream: fragments numbered from [seq] on, sent to a
    buffer that already holds at least [seq] fragments of that participant
    and round, are dropped up to the expected number and appended from
    there on.  In particular a client that restarts at 0 on a buffer of
    [k] fragments loses its first [k] fragments and gets the rest
    appended. *)
Theorem resent_stream_resumes_at_expected
    (p : string) (r : Z) (cs : list string) (seq : Z) (w : World) :
  0 ≤ seq ≤ Z.of_nat (length (stream w p r)) →
  stream (exec (submit p r seq cs) w) p r
  = stream w p r ++ drop (Z.to_nat (Z.of_nat (length (stream w p r)) - seq)) cs.
Proof.
  revert seq w. induction cs as [|c cs IH]; intros seq w Hseq.
  - by rewrite drop_nil, app_nil_r.
  - rewrite submit_step.
    set (m := {| tok_round := r; tok_participant_id := p;
                 tok_seq := seq; tok_content := c |}).
    pose proof (stream_handleToken m w p r) as Hst.
    rewrite (bool_decide_eq_true_2 (_ ∧ _)) in Hst by auto.
    unfold expected in Hst. simpl in Hst.
    destruct (decide (seq = Z.of_nat (length (stream w p r)))) as [Heq|Hne].
    + rewrite bool_decide_eq_true_2 in Hst by done.
      rewrite IH; rewrite Hst, length_app; simpl; [|lia].
      replace (Z.to_nat (Z.of_nat (length (stream w p r)) - seq)) with 0%nat by lia.
      replace (Z.to_nat (Z.of_nat (length (stream w p r) + 1) - (seq + 1)))
        with 0%nat by lia.
      simpl. by rewrite <- app_assoc.
    + rewrite bool_decide_eq_false_2 in Hst by done.
      rewrite IH; rewrite Hst; [|lia].
      replace (Z.to_nat (Z.of_nat (length (stream w p r)) - seq))
        with (S (Z.to_nat (Z.of_nat (length (stream w p r)) - (seq + 1)))) by lia.
      done.
Qed.

(** A buffer of two fragments, then the whole stream of four resent from 0. *)
Lemma resent_stream_resumes_at_expected_witness :
  let w := exec (submit "alice" 1 0 ["a"; "b"]) empty_world in
  stream (exec (submit "alice" 1 0 ["a"; "b"; "c"; "d"]) w) "alice" 1
  = ["a"; "b"; "c"; "d"].
Proof.
  apply (resent_stream_resumes_at_expected "alice" 1 ["a"; "b"; "c"; "d"] 0
           (exec (submit "alice" 1 0 ["a"; "b"]) empty_world)).
  vm_compute. split; discriminate.
Defined.

(** X2.  A gap is never recovered: once a stream of token messages is
    ahead of the expected number, every message of it is dropped, however
    many follow, and no stream in the buffer changes. *)
Theorem gap_drops_the_rest_of_the_stream
    (p : string) (r : Z) (cs : list string) (seq : Z) (w : World) :
  Z.of_nat (length (stream w p r)) < seq →
  ∀ p' r', stream (exec (submit p r seq cs) w) p' r' = stream w p' r'.
Proof.
  revert seq w. induction cs as [|c cs IH]; intros seq w Hseq p' r'; [done|].
  rewrite submit_step.
  set (m := {| tok_round := r; tok_participant_id := p;
               tok_seq := seq; tok_content := c |}).
  assert (Hsame : ∀ p0 r0, stream (exec (Hub.handleToken m) w) p0 r0 = stream w p0 r0).
  { intros p0 r0. rewrite stream_handleToken. unfold expected. simpl.
    rewrite (bool_decide_eq_false_2 (seq = _)) by lia.
    by destruct (bool_decide (_ ∧ _)). }
  rewrite IH; [apply Hsame|]. rewrite Hsame. lia.
Qed.

Lemma gap_drops_the_rest_of_the_stream_witness :
  stream (exec (submit "alice" 1 1 ["b"; "c"; "d"]) empty_world) "alice" 1 = [].
Proof.
  apply (gap_drops_the_rest_of_the_stream "alice" 1 ["b"; "c"; "d"] 1 empty_world).
  vm_compute. reflexivity.
Defined.

Lemma receive_step (m : TokenMessage) (ms : list TokenMessage) (w : World) :
  exec (receive (m :: ms)) w = exec (receive ms) (exec (Hub.handleToken m) w).
Proof.
  unfold exec, receive. simpl. unfold mbind, M_bind. by rewrite handleToken_run.
Qed.

Lemma token_updates_logged_for (w : World) (m : TokenMessage) (p : string) (r : Z) :
  token_updates [logged_for w m] p r =
    if bool_decide (p = tok_participant_id m ∧ r = tok_round m)
       && bool_decide (tok_seq m = expected w m)
    then [(tok_seq m, tok_content m, expected w m + 1)] else [].
Proof.
  unfold token_updates, logged_for.
  destruct (bool_decide (tok_seq m = expected w m)); simpl.
  - destruct (decide (p = tok_participant_id m ∧ r = tok_round m)) as [[-> ->]|Hne].
    + by rewrite !(bool_decide_eq_true_2 (_ ∧ _)) by auto.
    + rewrite (bool_decide_eq_false_2 (p = _ ∧ _)) by done.
      rewrite (bool_decide_eq_false_2 (_ ∧ _)); [done|].
      intros [Hp Hr]. apply Hne. by split.
  - by rewrite andb_false_r.
Qed.

Lemma events_of_snoc (cs : list string) (c : string) :
  events_of (cs ++ [c])
  = events_of cs ++ [(Z.of_nat (length cs), c, Z.of_nat (length cs) + 1)].
Proof.
  unfold events_of. rewrite imap_app. simpl.
  by rewrite Nat.add_0_r.
Qed.

(** The log and the buffer agree, and a token message keeps them so. *)
Lemma handleToken_keeps_log_and_buffer_aligned (m : TokenMessage) (w : World) :
  (∀ p r, token_updates (logger w) p r = events_of (stream w p r)) →
  ∀ p r, token_updates (logger (exec (Hub.handleToken m) w)) p r
         = events_of (stream (exec (Hub.handleToken m) w) p r).
Proof.
  intros Hinv p r. rewrite stream_handleToken.
  destruct (handleToken_writes_no_socket m w) as [_ ->].
  unfold token_updates at 1. rewrite omap_app.
  fold (token_updates (logger w) p r) (token_updates [logged_for w m] p r).
  rewrite token_updates_logged_for, Hinv.
  destruct (bool_decide (p = tok_participant_id m ∧ r = tok_round m)) eqn:Hpr;
    simpl; [|by rewrite app_nil_r].
  apply bool_decide_eq_true_1 in Hpr as [-> ->].
  destruct (bool_decide (tok_seq m = expected w m)) eqn:Hseq;
    [|by rewrite app_nil_r].
  apply bool_decide_eq_true_1 in Hseq.
  rewrite events_of_snoc. rewrite Hseq. reflexivity.
Qed.

(** X3.  The [token_update] events and the buffer tell the same story.
    Starting with an empty log and an empty buffer, after any token
    messages whatever (in sequence or not, of any participants and
    rounds), the [token_update] events of each participant and round are,
    in order, exactly the buffered fragments of that pair, numbered 0, 1,
    2, ... with [total_tokens = seq + 1]: accepted sequence numbers are
    contiguous from 0 and nothing is buffered without its event. *)
Theorem token_updates_mirror_the_buffer (w : World) (ms : list TokenMessage) :
  logger w = [] → tokenBuffer w = ∅ →
  ∀ p r, token_updates (logger (exec (receive ms) w)) p r
         = events_of (stream (exec (receive ms) w) p r).
Proof.
  intros Hlog Hbuf.
  assert (Hinv : ∀ p r, token_updates (logger w) p r = events_of (stream w p r)).
  { intros p r. unfold stream. rewrite Hlog, Hbuf. by rewrite lookup_empty. }
  clear Hlog Hbuf. revert w Hinv.
  induction ms as [|m ms IH]; intros w Hinv p r; [apply Hinv|].
  rewrite receive_step. apply IH.
  by apply handleToken_keeps_log_and_buffer_aligned.
Qed.

Lemma token_updates_mirror_the_buffer_witness :
  let ms := [ {| tok_round := 1; tok_participant_id := "alice";
                 tok_seq := 0; tok_content := "a" |};
              {| tok_round := 1; tok_participant_id := "alice";
                 tok_seq := 2; tok_content := "c" |};
              {| tok_round := 1; tok_participant_id := "alice";
                 tok_seq := 1; tok_content := "b" |} ] in
  token_updates (logger (exec (receive ms) empty_world)) "alice" 1
  = events_of (stream (exec (receive ms) empty_world) "alice" 1).
Proof.
  intros ms.
  exact (token_updates_mirror_the_buffer empty_world ms eq_refl eq_refl "alice" 1).
Defined.

(** ** Snapshots *)

Lemma buffered_after_handleToken (m : TokenMessage) (w : World) (p : string) (r : Z) :
  is_Some (tokenBuffer (exec (Hub.handleToken m) w) !! p ≫= (.!! r))
  ↔ (p = tok_participant_id m ∧ r = tok_round m)
    ∨ is_Some (tokenBuffer w !! p ≫= (.!! r)).
Proof.
  unfold exec. rewrite handleToken_run. simpl. unfold tokenBuffer_after.
  destruct (decide (p = tok_participant_id m)) as [->|Hp].
  - rewrite lookup_insert_eq. simpl.
    destruct (decide (r = tok_round m)) as [->|Hr].
    + rewrite lookup_insert_eq. split; [by left|by eexists].
    + rewrite lookup_insert_ne by done.
      destruct (tokenBuffer w !! tok_participant_id m); simpl;
        (split; [by right|by intros [[_ ?]|?]]).
  - rewrite lookup_insert_ne by done.
    split; [by right|by intros [[? _]|?]].
Qed.

Lemma buffered_after_receive (ms : list TokenMessage) (p : string) (r : Z) :
  ∀ w, is_Some (tokenBuffer (exec (receive ms) w) !! p ≫= (.!! r))
       ↔ (∃ m, m ∈ ms ∧ tok_participant_id m = p ∧ tok_round m = r)
         ∨ is_Some (tokenBuffer w !! p ≫= (.!! r)).
Proof.
  induction ms as [|m ms IH]; intros w.
  - unfold exec, receive. simpl. split; [by right|].
    intros [(m & Hin & _)|H]; [by apply elem_of_nil in Hin|done].
  - rewrite receive_step, IH, buffered_after_handleToken. split.
    + intros [(m' & Hin & Hp & Hr)|[[-> ->]|H]].
      * left. exists m'. split; [by right|done].
      * left. exists m. split; [by left|done].
      * by right.
    + intros [(m' & Hin & Hp & Hr)|H]; [|by right; right].
      apply elem_of_cons in Hin as [->|Hin].
      * right. left. by subst.
      * left. by exists m'.
Qed.

(** X4.  Who is in a snapshot.  Starting from an empty buffer, after any
    token messages the snapshot of round [r] has an entry for participant
    [p] exactly when one of the messages was of [p] for round [r] --
    accepted or not: a participant all of whose messages were dropped is
    listed, with the empty list -- and the entry is the buffered stream.
    Taking the snapshot changes nothing. *)
Theorem snapshot_lists_who_sent_tokens
    (w : World) (ms : list TokenMessage) (r : Z) (p : string) :
  tokenBuffer w = ∅ →
  let w' := exec (receive ms) w in
  exec (Hub.getCurrentRoundTokens r) w' = w'
  ∧ ∃ snap, eval (Hub.getCurrentRoundTokens r) w' = Ok snap
      ∧ (is_Some (snap !! p)
         ↔ ∃ m, m ∈ ms ∧ tok_participant_id m = p ∧ tok_round m = r)
      ∧ (∀ cs, snap !! p = Some cs → cs = stream w' p r).
Proof.
  intros Hbuf w'. split; [done|].
  destruct (getCurrentRoundTokens_lookup r w' p) as (snap & Hrun & Hlook).
  exists snap. split; [unfold eval; by rewrite Hrun|]. split.
  - rewrite Hlook. unfold w'. rewrite buffered_after_receive.
    rewrite Hbuf, lookup_empty. simpl. split; [|by left].
    intros [H|[? ?]]; done.
  - intros cs Hcs. unfold stream. rewrite <- Hlook, Hcs. done.
Qed.

Lemma snapshot_lists_who_sent_tokens_witness :
  let ms := [ {| tok_round := 1; tok_participant_id := "bob";
                 tok_seq := 7; tok_content := "x" |} ] in
  ∃ snap, eval (Hub.getCurrentRoundTokens 1) (exec (receive ms) empty_world) = Ok snap
    ∧ (is_Some (snap !! "bob")
       ↔ ∃ m, m ∈ ms ∧ tok_participant_id m = "bob" ∧ tok_round m = 1)
    ∧ (∀ cs, snap !! "bob" = Some cs →
             cs = stream (exec (receive ms) empty_world) "bob" 1).
Proof.
  intros ms.
  exact (proj2 (snapshot_lists_who_sent_tokens empty_world ms 1 "bob" eq_refl)).
Defined.

(** ** Disconnection, registration, completion, shutdown *)

Lemma deliveries_0_after_delete (cs : gmap string ParticipantConnection)
    (connId : string) (r : WebSocketRef) :
  (∀ other conn', other ≠ connId → cs !! other = Some conn' → ws conn' ≠ r) →
  deliveries (map_to_list (delete connId cs)).*2 r = 0%nat.
Proof.
  intros Hothers. unfold deliveries.
  destruct (filter _ _) as [|conn' l] eqn:Hf; [done|].
  assert (Hin : conn' ∈ filter (λ conn, ws conn = r) (map_to_list (delete connId cs)).*2)
    by (rewrite Hf; left).
  apply list_elem_of_filter in Hin as [Hws Hin].
  apply list_elem_of_fmap in Hin as ([other c] & -> & Hin).
  apply elem_of_map_to_list in Hin. simpl in Hws.
  apply lookup_delete_Some in Hin as [Hne Hin].
  by destruct (Hothers other c).
Qed.

(** X5.  A disconnection removes the binding of that connection and
    nothing else: the participant's buffered tokens and the store stay,
    no socket is written, another disconnection of the same connection
    changes nothing, and a later broadcast leaves the socket of the
    disconnected connection alone (when no other connection holds it). *)
Theorem disconnection_unbinds_one_connection
    (connId : string) (w : World) (message : ServerMessage)
    (conn : ParticipantConnection) (so : WebSocket.t) :
  connections w !! connId = Some conn →
  sockets w !! ws conn = Some so →
  (∀ other conn', other ≠ connId → connections w !! other = Some conn' →
                  ws conn' ≠ ws conn) →
  let w' := exec (Hub.handleDisconnection connId) w in
  eval (Hub.handleDisconnection connId) w = Ok ()
  ∧ connections w' = delete connId (connections w)
  ∧ tokenBuffer w' = tokenBuffer w ∧ prisma w' = prisma w ∧ sockets w' = sockets w
  ∧ exec (Hub.handleDisconnection connId) w' = w'
  ∧ sockets (exec (Hub.broadcast message) w') !! ws conn = Some so.
Proof.
  intros Hconn Hws Hothers w'.
  assert (Hrun : Hub.handleDisconnection connId w =
            (Ok (), with_connections (delete connId)
                      (with_logger (λ ls, ls ++ [{| level := info;
                           text := "Participant disconnected"; attached := None |}]) w))).
  { unfold Hub.handleDisconnection. run_M. by rewrite Hconn. }
  unfold w', exec, eval. rewrite Hrun. simpl.
  repeat (split; [done|]). split.
  - unfold Hub.handleDisconnection. run_M. by rewrite lookup_delete_eq.
  - match goal with |- context [Hub.broadcast message ?w1] =>
      destruct (for_each_send (JSON_stringify message)
                  (map_to_list (connections w1)).*2 w1) as (_ & _ & _ & _ & Hso) end.
    unfold exec, Hub.broadcast in *. rewrite Hso. simpl.
    rewrite deliveries_0_after_delete by done.
    rewrite Hws. simpl. by rewrite after_writes_0.
Qed.

Lemma disconnection_unbinds_one_connection_witness :
  let w' := exec (Hub.handleDisconnection "conn-1") alice_connected in
  connections w' = delete "conn-1" (connections alice_connected)
  ∧ sockets (exec (Hub.broadcast (msg_heartbeat 1)) w') !! "ws-1"
    = Some (WebSocket.mk false [] false).
Proof.
  pose proof (disconnection_unbinds_one_connection "conn-1" alice_connected
                (msg_heartbeat 1)
                {| participantId := "alice"; sessionId := "s1"; ws := "ws-1";
                   lastSeq := ∅; lastSeen := 0 |}
                (WebSocket.mk false [] false) eq_refl eq_refl) as H.
  simpl in H.
  assert (Hothers : ∀ other conn', other ≠ "conn-1" →
            connections alice_connected !! other = Some conn' → ws conn' ≠ "ws-1").
  { intros other conn' Hne Hlook. simpl in Hlook.
    by rewrite lookup_singleton_ne in Hlook. }
  destruct (H Hothers) as (_ & H1 & _ & _ & _ & _ & H2).
  split; [exact H1 | exact H2].
Defined.

(** A disconnection of a connection the registry does not know is a no-op. *)
Lemma disconnection_of_unknown_connection (connId : string) (w : World) :
  connections w !! connId = None →
  Hub.handleDisconnection connId w = (Ok (), w).
Proof. intros Hnone. unfold Hub.handleDisconnection. run_M. by rewrite Hnone. Qed.

Lemma handleRegister_prisma
    (bcrypt_compare : string → string → bool) (now : Z)
    (connId : string) (ws : WebSocketRef) (message : RegisterMessage) (w : World) :
  prisma (exec (Hub.handleRegister bcrypt_compare now connId ws message) w) =
    match admitted bcrypt_compare message w with
    | Some s =>
        with_participant (Hub.upsertParticipant now (Session.id s) message) (prisma w)
    | None => prisma w
    end
  ∧ tokenBuffer (exec (Hub.handleRegister bcrypt_compare now connId ws message) w)
    = tokenBuffer w.
Proof.
  destruct w as [db cs tb ss lg].
  unfold exec, admitted, Hub.handleRegister, ws_send. run_M.
  destruct (ss !! ws) as [so|] eqn:Hws;
    [destruct (WebSocket.sendThrows so) eqn:Hthrow|];
    (destruct (Hub.findActiveSession (session db)) as [s|]; simpl;
     [destruct (bcrypt_compare (reg_pin message) (Session.pinHash s)); simpl|]);
    rewrite ?Hws; simpl; rewrite ?Hthrow; simpl;
    rewrite ?Hws; simpl; rewrite ?Hthrow; simpl; done.
Qed.

(** X6.  A register message that is not admitted -- no active session, or
    a PIN that does not match -- is answered with an error frame and
    changes nothing else: the connection stays unbound (or bound as it
    was), the store and the buffer are untouched, and the socket is
    written once and not closed, so the client may retry on it. *)
Theorem refused_register_changes_nothing
    (bcrypt_compare : string → string → bool) (now : Z)
    (connId : string) (ws : WebSocketRef) (message : RegisterMessage) (w : World)
    (so : WebSocket.t) :
  admitted bcrypt_compare message w = None →
  sockets w !! ws = Some so → WebSocket.sendThrows so = false →
  let w' := exec (Hub.handleRegister bcrypt_compare now connId ws message) w in
  eval (Hub.handleRegister bcrypt_compare now connId ws message) w = Ok ()
  ∧ connections w' = connections w
  ∧ prisma w' = prisma w
  ∧ tokenBuffer w' = tokenBuffer w
  ∧ sockets w' !! ws
    = Some (WebSocket.mk false (WebSocket.sent so ++ [JSON (refusal w)])
              (WebSocket.closed so)).
Proof.
  intros Hadm Hws Hthrow w'. unfold w'.
  destruct (handleRegister_reply bcrypt_compare now connId ws message w so Hws Hthrow)
    as [Hev Hreply].
  destruct (handleRegister_prisma bcrypt_compare now connId ws message w) as [Hdb Htb].
  rewrite handleRegister_connections, Hdb, Htb, Hadm, Hreply.
  repeat (split; [done|]).
  unfold after_writes, refusal. rewrite Hthrow. unfold admitted in Hadm.
  destruct (Hub.findActiveSession (session (prisma w))) as [s|]; [|done].
  simpl in Hadm.
  by destruct (bcrypt_compare (reg_pin message) (Session.pinHash s)).
Qed.

Lemma refused_register_changes_nothing_witness :
  let wrong := {| reg_participant_id := "alice"; reg_nickname := "Alice";
                  reg_pin := "000000"; reg_runner := "mock"; reg_model := "m" |} in
  let w' := exec (Hub.handleRegister plain_compare 0 "conn-1" "ws-1" wrong)
              session_open in
  connections w' = ∅
  ∧ sockets w' !! "ws-1"
    = Some (WebSocket.mk false [JSON (msg_error "Invalid PIN")] false).
Proof.
  intros wrong.
  pose proof (refused_register_changes_nothing plain_compare 0 "conn-1" "ws-1"
                wrong session_open (WebSocket.mk false [] false)
                eq_refl eq_refl eq_refl) as (_ & H1 & _ & _ & H2).
  split; [exact H1 | exact H2].
Defined.

(** X7.  Registering again under a known participant identifier updates
    only what the client runs: the stored row keeps its nickname and the
    session it was created in, and takes the new runner, model and
    last-seen time -- so after a register admitted by a newer session the
    connection is bound to the new session while the row still belongs to
    the old one.  A participant not yet known gets a fresh row in the
    admitting session. *)
Theorem register_again_keeps_nickname_and_session
    (bcrypt_compare : string → string → bool) (now : Z)
    (connId : string) (ws : WebSocketRef) (message : RegisterMessage) (w : World)
    (s : Session.t) :
  admitted bcrypt_compare message w = Some s →
  let w' := exec (Hub.handleRegister bcrypt_compare now connId ws message) w in
  let id := reg_participant_id message in
  participant (prisma w') !! id =
    Some match participant (prisma w) !! id with
         | Some old =>
             Participant.mk (Participant.id old) (Participant.sessionId old)
               (Participant.nickname old) (reg_runner message) (reg_model message) now
         | None =>
             Participant.mk id (Session.id s) (reg_nickname message)
               (reg_runner message) (reg_model message) now
         end
  ∧ sessionId <$> connections w' !! connId = Some (Session.id s)
  ∧ (∀ other, other ≠ id →
       participant (prisma w') !! other = participant (prisma w) !! other).
Proof.
  intros Hadm w' id. unfold w'.
  destruct (handleRegister_prisma bcrypt_compare now connId ws message w) as [-> _].
  rewrite handleRegister_connections, Hadm. simpl.
  unfold Hub.upsertParticipant. fold id.
  rewrite lookup_insert_eq. split; [|split; [done|]].
  - destruct (participant (prisma w) !! id); by rewrite lookup_insert_eq.
  - intros other Hne.
    destruct (participant (prisma w) !! id); by rewrite lookup_insert_ne.
Qed.

Lemma register_again_keeps_nickname_and_session_witness :
  let w' := exec (Hub.handleRegister plain_compare 20 "conn-1" "ws-1"
                    alice_registers_again) two_sessions in
  participant (prisma w') !! "alice"
  = Some (Participant.mk "alice" "s0" "Alice" "ollama" "llama3.1:8b" 20)
  ∧ sessionId <$> connections w' !! "conn-1" = Some "s1".
Proof.
  pose proof (register_again_keeps_nickname_and_session plain_compare 20 "conn-1"
                "ws-1" alice_registers_again two_sessions
                (Session.mk "s1" "123456" active 10) eq_refl) as (H1 & H2 & _).
  split; [exact H1 | exact H2].
Defined.

Lemma find_earliest {A} (f : A → bool) (l : list A) (i : nat) (x : A) :
  l !! i = Some x → f x = true →
  (∀ j y, (j < i)%nat → l !! j = Some y → f y = false) →
  find f l = Some x.
Proof.
  revert i. induction l as [|a l IH]; intros i Hi Hx Hbefore; [done|].
  destruct i as [|i]; simpl in *.
  - injection Hi as ->. by rewrite Hx.
  - rewrite (Hbefore 0%nat a) by (done || lia).
    apply (IH i); [done|done|]. intros j y Hj Hy. apply (Hbefore (S j) y); [lia|done].
Qed.

Lemma find_none_iff {A} (f : A → bool) (l : list A) :
  (∀ x, x ∈ l → f x = false) → find f l = None.
Proof.
  induction l as [|a l IH]; intros Hall; [done|]. simpl.
  rewrite (Hall a) by left. apply IH. intros x Hx. apply Hall. by right.
Qed.

Lemma handleComplete_frame (m : CompleteMessage) (w : World) :
  connections (exec (Hub.handleComplete m) w) = connections w
  ∧ tokenBuffer (exec (Hub.handleComplete m) w) = tokenBuffer w
  ∧ sockets (exec (Hub.handleComplete m) w) = sockets w.
Proof.
  destruct w as [db cs tb ss lg].
  unfold exec, Hub.handleComplete, Hub.upsertMetrics, Hub.broadcastToTelao. run_M.
  destruct (Hub.findRoundByIndex (round db) (cmp_round m)) as [rd|]; [|done]. simpl.
  destruct (metrics db !! (Round.id rd, cmp_participant_id m)) as [row|]; [done|].
  simpl. by destruct (has (participant db) (cmp_participant_id m)).
Qed.

(** X8.  A complete message for a round index that no round in the store
    carries records nothing: the handler returns normally, the world is
    as it was but for one error record in the log -- no metrics row, no
    completion event, no reply. *)
Theorem complete_for_unknown_round_records_nothing
    (m : CompleteMessage) (w : World) :
  (∀ rd, rd ∈ round (prisma w) → Round.index rd ≠ cmp_round m) →
  Hub.handleComplete m w
  = (Ok (), with_logger (λ ls, ls ++ [{| level := error_level;
                                         text := "Round not found";
                                         attached := None |}]) w).
Proof.
  intros Hnone. unfold Hub.handleComplete, Hub.findRoundByIndex. run_M.
  rewrite find_none_iff; [done|].
  intros rd Hin. apply bool_decide_eq_false_2. by apply Hnone.
Qed.

Lemma complete_for_unknown_round_records_nothing_witness :
  metrics (prisma (exec (Hub.handleComplete (alice_completes 3 1000)) session_open))
  = ∅.
Proof.
  unfold exec.
  rewrite (complete_for_unknown_round_records_nothing (alice_completes 3 1000)
             session_open); [reflexivity|].
  intros rd Hin. by apply elem_of_nil in Hin.
Defined.

(** X9.  A complete message is recorded against the earliest round in the
    store that carries its index, whatever session that round belongs to
    and whether it is open.  When the participant has a row, the row under
    the key of that round and the participant holds the message's token
    count afterwards, and it is the row made from the message when there
    was none before; whether or not anything is written, every other key
    of the metrics table is as it was, so a later round with the same
    index (the first round of a newer session, say) gets no metrics from
    the message. *)
Theorem complete_goes_to_the_earliest_round_with_the_index
    (m : CompleteMessage) (w : World) (i : nat) (first : Round.t) :
  round (prisma w) !! i = Some first →
  Round.index first = cmp_round m →
  (∀ j rd, (j < i)%nat → round (prisma w) !! j = Some rd →
           Round.index rd ≠ cmp_round m) →
  is_Some (participant (prisma w) !! cmp_participant_id m) →
  let w' := exec (Hub.handleComplete m) w in
  let key := (Round.id first, cmp_participant_id m) in
  Metrics.tokens <$> metrics (prisma w') !! key = Some (cmp_tokens m)
  ∧ (metrics (prisma w) !! key = None →
       metrics (prisma w') = <[key := metrics_row first m]> (metrics (prisma w)))
  ∧ (∀ k, k ≠ key → metrics (prisma w') !! k = metrics (prisma w) !! k).
Proof.
  intros Hi Hidx Hbefore Hp w' key.
  assert (Hfind : Hub.findRoundByIndex (round (prisma w)) (cmp_round m) = Some first).
  { apply (find_earliest _ _ i); [done|by apply bool_decide_eq_true_2|].
    intros j rd Hj Hrd. apply bool_decide_eq_false_2. by apply (Hbefore j). }
  destruct (handleComplete_row m w first Hfind Hp) as (Hrow & Hother & _).
  fold key w' in Hrow, Hother.
  split; [|split; [|exact Hother]].
  - rewrite Hrow. by destruct (metrics (prisma w) !! key).
  - intros Hnone. rewrite Hnone in Hrow. apply map_eq. intros k.
    destruct (decide (k = key)) as [->|Hk].
    + by rewrite Hrow, lookup_insert_eq.
    + by rewrite Hother, lookup_insert_ne.
Qed.

Lemma complete_goes_to_the_earliest_round_with_the_index_witness :
  let w' := exec (Hub.handleComplete (alice_completes 3 1000)) two_sessions in
  metrics (prisma w')
  = <[("r-old", "alice") := metrics_row old_round (alice_completes 3 1000)]> ∅
  ∧ metrics (prisma w') !! ("r-new", "alice")
    = metrics (prisma two_sessions) !! ("r-new", "alice").
Proof.
  assert (Hbefore : ∀ j rd, (j < 0)%nat → round (prisma two_sessions) !! j = Some rd →
                            Round.index rd ≠ cmp_round (alice_completes 3 1000))
    by (intros j rd Hj; lia).
  pose proof (complete_goes_to_the_earliest_round_with_the_index
                (alice_completes 3 1000) two_sessions 0 old_round
                eq_refl eq_refl Hbefore (mk_is_Some _ _ eq_refl)) as (_ & H1 & H2).
  split; [exact (H1 eq_refl)|].
  apply H2. discriminate.
Defined.

Lemma close_socket_twice (so : WebSocket.t) :
  close_socket (close_socket so) = close_socket so.
Proof. done. Qed.

(** The first loop of [cleanup]: the sockets held by the connections are
    closed, everything else is left alone. *)
Lemma for_each_close (conns : list ParticipantConnection) :
  ∀ w, let body := λ conn : ParticipantConnection,
                     modify (with_sockets (alter close_socket (ws conn))) in
    eval (for_each conns body) w = Ok ()
    ∧ prisma (exec (for_each conns body) w) = prisma w
    ∧ logger (exec (for_each conns body) w) = logger w
    ∧ ∀ r, sockets (exec (for_each conns body) w) !! r
           = (if bool_decide (0 < deliveries conns r)%nat then close_socket else id)
               <$> sockets w !! r.
Proof.
  induction conns as [|conn conns IH]; intros w body.
  - unfold exec, eval. simpl. repeat split. intros r.
    by destruct (sockets w !! r).
  - unfold exec, eval. simpl. unfold mbind, M_bind, body at 1 3 5 7, modify. simpl.
    specialize (IH (with_sockets (alter close_socket (ws conn)) w)).
    destruct IH as (Hev & Hdb & Hlg & Hso). fold body in Hev, Hdb, Hlg, Hso.
    unfold exec, eval in *. repeat (split; [done|]).
    intros r. rewrite Hso. simpl. unfold deliveries. rewrite filter_cons.
    destruct (decide (ws conn = r)) as [<-|Hne]; simpl.
    + rewrite lookup_alter_eq. destruct (sockets w !! ws conn); [|done]. simpl.
      by case_bool_decide.
    + by rewrite lookup_alter_ne.
Qed.

(** X10.  Shutdown.  [cleanup] empties the registry and the token buffer
    -- every snapshot is empty afterwards -- and closes the socket of
    every registered connection, without writing to any socket and without
    touching the store. *)
Theorem cleanup_empties_the_hub (w : World) :
  let w' := exec Hub.cleanup w in
  eval Hub.cleanup w = Ok ()
  ∧ connections w' = ∅ ∧ tokenBuffer w' = ∅ ∧ prisma w' = prisma w
  ∧ (∀ r, eval (Hub.getCurrentRoundTokens r) w' = Ok ∅)
  ∧ (∀ connId conn so,
       connections w !! connId = Some conn → sockets w !! ws conn = Some so →
       sockets w' !! ws conn = Some (close_socket so))
  ∧ (∀ r, WebSocket.sent <$> sockets w' !! r = WebSocket.sent <$> sockets w !! r).
Proof.
  intros w'.
  destruct (for_each_close (map_to_list (connections w)).*2 w)
    as (Hev & Hdb & _ & Hso).
  unfold w', exec, eval, Hub.cleanup in *. run_M.
  change (λ conn : ParticipantConnection,
            (λ w0 : World,
               (Ok (),
                with_sockets
                  (alter (λ so : WebSocket.t,
                            {| WebSocket.sendThrows := WebSocket.sendThrows so;
                               WebSocket.sent := WebSocket.sent so;
                               WebSocket.closed := true |}) (ws conn)) w0)))
    with (λ conn : ParticipantConnection,
            modify (with_sockets (alter close_socket (ws conn)))).
  destruct (for_each _ _ w) as [res w1]. simpl in *. subst res. simpl.
  do 4 (split; [done|]). split; [|split].
  - intros r. by rewrite omap_empty.
  - intros connId conn so Hconn Hws. rewrite Hso, Hws. simpl.
    rewrite bool_decide_eq_true_2; [done|]. by eapply deliveries_pos.
  - intros r. rewrite Hso. destruct (sockets w !! r) as [so|]; [|done]. simpl.
    by destruct (bool_decide _).
Qed.

(** ** The message listener *)

(** X11.  A frame that does not parse is answered, not fatal: the sender
    gets the error frame "Invalid message format" on its socket, which
    stays open; one error record is logged; registry, buffer and store
    are untouched and the listener returns normally. *)
Theorem malformed_frame_is_answered
    (bcrypt_compare : string → string → bool) (now : Z)
    (connId : string) (ws : WebSocketRef) (w : World) (so : WebSocket.t) :
  sockets w !! ws = Some so → WebSocket.sendThrows so = false →
  Hub.onMessage bcrypt_compare now connId ws None w
  = (Ok (),
     with_sockets
       <[ws := WebSocket.mk false
                 (WebSocket.sent so ++ [JSON (msg_error "Invalid message format")])
                 (WebSocket.closed so)]>
       (with_logger (λ ls, ls ++ [{| level := error_level;
                                     text := "Failed to parse message";
                                     attached := None |}]) w)).
Proof.
  intros Hws Hthrow. unfold Hub.onMessage, ws_send. run_M.
  by rewrite Hws, Hthrow.
Qed.

Lemma malformed_frame_is_answered_witness :
  WebSocket.sent <$>
    sockets (exec (Hub.onMessage plain_compare 0 "conn-1" "ws-1" None) alice_connected)
      !! "ws-1"
  = Some [JSON (msg_error "Invalid message format")].
Proof.
  unfold exec.
  rewrite (malformed_frame_is_answered plain_compare 0 "conn-1" "ws-1"
             alice_connected (WebSocket.mk false [] false) eq_refl eq_refl).
  reflexivity.
Defined.

(** X12.  Token, complete and error messages are never answered: whatever
    the message and the state (a sequence mismatch, an unknown round, a
    well-formed token), the listener returns normally, writes to no socket
    and leaves the registry as it was.  The only frames a client is ever
    sent in reply are those of [register] and of a parse failure. *)
Theorem only_register_is_answered
    (bcrypt_compare : string → string → bool) (now : Z)
    (connId : string) (ws : WebSocketRef) (w : World) :
  let silent message :=
    eval (Hub.onMessage bcrypt_compare now connId ws (Some message)) w = Ok ()
    ∧ sockets (exec (Hub.onMessage bcrypt_compare now connId ws (Some message)) w)
      = sockets w
    ∧ connections (exec (Hub.onMessage bcrypt_compare now connId ws (Some message)) w)
      = connections w in
  (∀ m, silent (token m)) ∧ (∀ m, silent (complete m))
  ∧ (∀ code text, silent (error code text)).
Proof.
  intros silent. unfold silent, Hub.onMessage, Hub.handleMessage, exec, eval.
  split; [|split].
  - intros m. unfold try_catch. by rewrite handleToken_run.
  - intros m. unfold try_catch.
    destruct (handleComplete_prisma m w) as [Hev _].
    destruct (handleComplete_frame m w) as (Hcs & _ & Hso).
    unfold exec, eval in *.
    destruct (Hub.handleComplete m w) as [res w1]. simpl in *. by subst res.
  - intros code text. unfold try_catch. by run_M.
Qed.

(** ** More on the round manager *)

Lemma broadcast_run (message : ServerMessage) (w : World) :
  ∃ w', Hub.broadcast message w = (Ok (), w')
    ∧ prisma w' = prisma w ∧ connections w' = connections w
    ∧ tokenBuffer w' = tokenBuffer w
    ∧ ∀ r, sockets w' !! r
           = after_writes (deliveries (map_to_list (connections w)).*2 r)
               (JSON_stringify message) <$> sockets w !! r.
Proof.
  destruct (for_each_send (JSON_stringify message)
              (map_to_list (connections w)).*2 w) as (Hev & Hdb & Hcs & Htb & Hso).
  exists (exec (Hub.broadcast message) w). split; [|by repeat split].
  change (eval (Hub.broadcast message) w = Ok ()) in Hev.
  unfold exec, eval in *.
  destruct (Hub.broadcast message w) as [res w']. simpl in *. by subst res.
Qed.

(** X13.  Starting a pending round sends its challenge -- session, index,
    prompt and parameters as stored -- to the socket of every registered
    connection whose [send] works, once per connection holding the
    socket, whatever session that connection registered in. *)
Theorem startRound_sends_the_challenge
    (now : Z) (roundId : string) (w : World) (rd : Round.t)
    (connId : string) (conn : ParticipantConnection) (so : WebSocket.t) :
  RoundManager.findRound (prisma w) roundId = Some rd →
  Round.startedAt rd = None →
  connections w !! connId = Some conn →
  sockets w !! ws conn = Some so →
  WebSocket.sendThrows so = false →
  let n := deliveries (map_to_list (connections w)).*2 (ws conn) in
  (0 < n)%nat
  ∧ sockets (exec (RoundManager.startRound now roundId) w) !! ws conn
    = Some (WebSocket.mk false
              (WebSocket.sent so ++ replicate n (JSON (challenge_of rd)))
              (WebSocket.closed so)).
Proof.
  intros Hfind Hstart Hconn Hws Hthrow n. split; [by eapply deliveries_pos|].
  unfold exec, RoundManager.startRound. run_M. rewrite Hfind, Hstart.
  match goal with |- context [Hub.broadcast ?msg ?w1] =>
    destruct (broadcast_run msg w1) as (w2 & Hrun & _ & _ & _ & Hso) end.
  rewrite Hrun. simpl. rewrite Hso. simpl. rewrite Hws. simpl.
  unfold after_writes. by rewrite Hthrow.
Qed.

Lemma startRound_sends_the_challenge_witness :
  let w := with_prisma (λ _, prisma one_round) alice_connected in
  sockets (exec (RoundManager.startRound 5 "r1") w) !! "ws-1"
  = Some (WebSocket.mk false
            (replicate
               (deliveries (map_to_list (connections alice_connected)).*2 "ws-1")
               (JSON (msg_challenge "s1" 1 "p" 10 0.5%float 90000 None)))
            false).
Proof.
  exact (proj2 (startRound_sends_the_challenge 5 "r1"
                  (with_prisma (λ _, prisma one_round) alice_connected) round_one
                  "conn-1"
                  {| participantId := "alice"; sessionId := "s1"; ws := "ws-1";
                     lastSeq := ∅; lastSeen := 0 |}
                  (WebSocket.mk false [] false)
                  eq_refl eq_refl eq_refl eq_refl eq_refl)).
Defined.

Lemma is_open_dec (sid : string) (r : Round.t) :
  bool_decide (Round.sessionId r = sid)
  && bool_decide (is_Some (Round.startedAt r))
  && bool_decide (Round.endedAt r = None) = true ↔ is_open sid r.
Proof.
  unfold is_open. rewrite !andb_true_iff, !bool_decide_eq_true. tauto.
Qed.

(** X14.  [getCurrentRound] answers with the open round of the session
    that has the highest index: what it returns is a round of the store,
    of that session, started and not ended, and no open round of the
    session has a higher index; it returns nothing exactly when the
    session has no open round.  It changes nothing. *)
Theorem getCurrentRound_is_the_open_round_of_highest_index
    (sid : string) (w : World) :
  ∃ res, RoundManager.getCurrentRound sid w = (Ok res, w)
    ∧ match res with
      | Some r =>
          r ∈ round (prisma w) ∧ is_open sid r
          ∧ ∀ r', r' ∈ round (prisma w) → is_open sid r' →
                  Round.index r' ≤ Round.index r
      | None => ∀ r', r' ∈ round (prisma w) → ¬ is_open sid r'
      end.
Proof.
  eexists. split; [reflexivity|].
  induction (round (prisma w)) as [|x l IH] using rev_ind.
  - simpl. intros r' Hin. by apply elem_of_nil in Hin.
  - rewrite foldl_snoc.
    destruct (bool_decide (Round.sessionId x = sid)
              && bool_decide (is_Some (Round.startedAt x))
              && bool_decide (Round.endedAt x = None)) eqn:Hx.
    + apply is_open_dec in Hx.
      destruct (foldl _ None l) as [b|].
      * destruct IH as (Hin & Hopen & Hmax).
        destruct (Z.ltb_spec (Round.index b) (Round.index x)).
        -- split; [apply elem_of_app; right; by left|]. split; [done|].
           intros r' Hr' Ho. apply elem_of_app in Hr' as [Hr'|Hr'].
           ++ specialize (Hmax r' Hr' Ho). lia.
           ++ apply list_elem_of_singleton in Hr' as ->. lia.
        -- split; [apply elem_of_app; by left|]. split; [done|].
           intros r' Hr' Ho. apply elem_of_app in Hr' as [Hr'|Hr'].
           ++ by apply Hmax.
           ++ by apply list_elem_of_singleton in Hr' as ->.
      * split; [apply elem_of_app; right; by left|]. split; [done|].
        intros r' Hr' Ho. apply elem_of_app in Hr' as [Hr'|Hr'].
        -- by destruct (IH r').
        -- apply list_elem_of_singleton in Hr' as ->. lia.
    + assert (Hnot : ¬ is_open sid x).
      { intros Ho. apply is_open_dec in Ho. congruence. }
      destruct (foldl _ None l) as [b|].
      * destruct IH as (Hin & Hopen & Hmax).
        split; [apply elem_of_app; by left|]. split; [done|].
        intros r' Hr' Ho. apply elem_of_app in Hr' as [Hr'|Hr'].
        -- by apply Hmax.
        -- by apply list_elem_of_singleton in Hr' as ->.
      * intros r' Hr' Ho. apply elem_of_app in Hr' as [Hr'|Hr'].
        -- by destruct (IH r').
        -- by apply list_elem_of_singleton in Hr' as ->.
Qed.

Lemma startRound_rounds (now : Z) (roundId : string) (w : World) :
  round (prisma (exec (RoundManager.startRound now roundId) w)) = round (prisma w)
  ∨ round (prisma (exec (RoundManager.startRound now roundId) w))
    = RoundManager.updateRound roundId (RoundManager.set_startedAt now)
        (round (prisma w)).
Proof.
  destruct (RoundManager.findRound (prisma w) roundId) as [rd|] eqn:Hfind.
  - destruct (Round.startedAt rd) as [t|] eqn:Hstart.
    + left. unfold exec, RoundManager.startRound. run_M. by rewrite Hfind, Hstart.
    + right. by destruct (startRound_pending now roundId w rd Hfind Hstart).
  - left. unfold exec, RoundManager.startRound. run_M. by rewrite Hfind.
Qed.

Lemma stopRound_rounds (now : Z) (roundId : string) (w : World) :
  round (prisma (exec (RoundManager.stopRound now roundId) w)) = round (prisma w)
  ∨ round (prisma (exec (RoundManager.stopRound now roundId) w))
    = RoundManager.updateRound roundId (RoundManager.set_endedAt now)
        (round (prisma w)).
Proof.
  unfold exec, RoundManager.stopRound. run_M.
  destruct (RoundManager.findRound (prisma w) roundId) as [rd|]; [|by left].
  destruct (Round.startedAt rd); [|by left].
  destruct (Round.endedAt rd); [by left|by right].
Qed.

Lemma createRound_rounds (newId : string) (params : CreateRoundParams) (w : World) :
  round (prisma (exec (RoundManager.createRound newId params) w)) = round (prisma w)
  ∨ round (prisma (exec (RoundManager.createRound newId params) w))
    = round (prisma w)
      ++ [created newId params (length (rounds_of w (crp_sessionId params)))].
Proof.
  unfold exec. rewrite createRound_run.
  destruct (find _ (session (prisma w))); [by right|by left].
Qed.

Lemma same_challenge_refl (r : Round.t) : same_challenge r r.
Proof. by repeat split. Qed.

(** What [startRound] and [stopRound] may do to a row, whichever row. *)
Lemma stamped_row_moves_forward (id : string) (now : Z) (r : Round.t) :
  let r1 := if bool_decide (Round.id r = id)
            then RoundManager.set_startedAt now r else r in
  let r2 := if bool_decide (Round.id r = id)
            then RoundManager.set_endedAt now r else r in
  (same_challenge r r1 ∧ (rank (state_of r) ≤ rank (state_of r1))%nat
   ∧ (Round.id r ≠ id → r1 = r))
  ∧ (same_challenge r r2 ∧ (rank (state_of r) ≤ rank (state_of r2))%nat
     ∧ (Round.id r ≠ id → r2 = r)).
Proof.
  simpl. case_bool_decide; [|by repeat split].
  destruct r as [i s x p mt t d sd sv [st|] [en|]]; by repeat split; simpl; try lia.
Qed.

(** X15.  The round manager never moves a round backwards and never
    rewrites a challenge.  After [startRound] or [stopRound] -- successful
    or not, on any round identifier -- every round of the store is still
    at its place with the same identifier, session, index, prompt and
    parameters, in the same state or a later one of pending, active,
    ended, and every round but the one named is exactly as it was;
    [createRound] leaves every existing round exactly as it was. *)
Theorem rounds_only_move_forward
    (now : Z) (roundId newId : string) (params : CreateRoundParams)
    (w : World) (i : nat) (r : Round.t) :
  round (prisma w) !! i = Some r →
  let started := exec (RoundManager.startRound now roundId) w in
  let stopped := exec (RoundManager.stopRound now roundId) w in
  let added := exec (RoundManager.createRound newId params) w in
  kept_at i r started ∧ kept_at i r stopped
  ∧ round (prisma added) !! i = Some r
  ∧ (Round.id r ≠ roundId →
       round (prisma started) !! i = Some r ∧ round (prisma stopped) !! i = Some r).
Proof.
  intros Hi started stopped added. unfold kept_at, started, stopped, added.
  destruct (stamped_row_moves_forward roundId now r)
    as [(Hs1 & Hr1 & He1) (Hs2 & Hr2 & He2)].
  assert (Hstart : ∃ r', round (prisma (exec (RoundManager.startRound now roundId) w))
                           !! i = Some r'
            ∧ same_challenge r r' ∧ (rank (state_of r) ≤ rank (state_of r'))%nat
            ∧ (Round.id r ≠ roundId → r' = r)).
  { destruct (startRound_rounds now roundId w) as [-> | ->].
    - exists r. split; [done|]. split; [apply same_challenge_refl|]. by split.
    - eexists. unfold RoundManager.updateRound.
      rewrite list_lookup_fmap, Hi. simpl. split; [done|]. by split; [|split]. }
  assert (Hstop : ∃ r', round (prisma (exec (RoundManager.stopRound now roundId) w))
                          !! i = Some r'
            ∧ same_challenge r r' ∧ (rank (state_of r) ≤ rank (state_of r'))%nat
            ∧ (Round.id r ≠ roundId → r' = r)).
  { destruct (stopRound_rounds now roundId w) as [-> | ->].
    - exists r. split; [done|]. split; [apply same_challenge_refl|]. by split.
    - eexists. unfold RoundManager.updateRound.
      rewrite list_lookup_fmap, Hi. simpl. split; [done|]. by split; [|split]. }
  destruct Hstart as (r1 & Hl1 & Hc1 & Hk1 & Hsame1).
  destruct Hstop as (r2 & Hl2 & Hc2 & Hk2 & Hsame2).
  split; [by exists r1|]. split; [by exists r2|]. split.
  - destruct (createRound_rounds newId params w) as [-> | ->]; [done|].
    by apply lookup_app_l_Some.
  - intros Hne. rewrite Hl1, Hl2. by rewrite (Hsame1 Hne), (Hsame2 Hne).
Qed.

Lemma rounds_only_move_forward_witness :
  kept_at 0 round_one (exec (RoundManager.startRound 5 "r1") one_round)
  ∧ kept_at 0 round_one (exec (RoundManager.stopRound 5 "r1") one_round).
Proof.
  pose proof (rounds_only_move_forward 5 "r1" "r2" (prompt_only "s1" "q")
                one_round 0 round_one eq_refl) as (H1 & H2 & _).
  split; [exact H1 | exact H2].
Defined.

Lemma rounds_of_updateRound (id : string) (f : Round.t → Round.t)
    (rs : list Round.t) (sid : string) :
  (∀ r, Round.sessionId (f r) = Round.sessionId r) →
  (∀ r, Round.index (f r) = Round.index r) →
  Round.index <$> filter (λ r, Round.sessionId r = sid) (RoundManager.updateRound id f rs)
  = Round.index <$> filter (λ r, Round.sessionId r = sid) rs.
Proof.
  intros Hsid Hidx. unfold RoundManager.updateRound.
  induction rs as [|r rs IH]; [done|]. rewrite fmap_cons, !filter_cons.
  assert (Hs : Round.sessionId (if bool_decide (Round.id r = id) then f r else r)
               = Round.sessionId r) by (by case_bool_decide).
  assert (Hi : Round.index (if bool_decide (Round.id r = id) then f r else r)
               = Round.index r) by (by case_bool_decide).
  rewrite Hs. destruct (decide (Round.sessionId r = sid)); [|done].
  rewrite !fmap_cons, Hi. by f_equal.
Qed.

Lemma well_indexed_same_indices (w w' : World) :
  (∀ sid, Round.index <$> rounds_of w' sid = Round.index <$> rounds_of w sid) →
  well_indexed w → well_indexed w'.
Proof.
  intros Hsame Hw sid. rewrite Hsame.
  assert (Hlen : length (rounds_of w' sid) = length (rounds_of w sid)).
  { rewrite <- (length_fmap Round.index), Hsame. apply length_fmap. }
  rewrite Hlen. apply Hw.
Qed.

(** X16.  Round indices stay gap-free.  If within every session the
    rounds carry the indices 1, 2, 3, ... in store order -- as in a store
    without rounds -- then they still do after [createRound], [startRound]
    or [stopRound], whatever the arguments and whether the call succeeds:
    the manager always hands out the next free index of the session and
    never changes an index. *)
Theorem round_indices_stay_gap_free
    (now : Z) (roundId newId : string) (params : CreateRoundParams) (w : World) :
  well_indexed w →
  well_indexed (exec (RoundManager.createRound newId params) w)
  ∧ well_indexed (exec (RoundManager.startRound now roundId) w)
  ∧ well_indexed (exec (RoundManager.stopRound now roundId) w).
Proof.
  intros Hw. split; [|split].
  - destruct (createRound_rounds newId params w) as [Heq|Heq].
    + apply (well_indexed_same_indices w); [|done].
      intros sid. unfold rounds_of. by rewrite Heq.
    + intros sid. unfold rounds_of. rewrite Heq, filter_app, filter_cons, filter_nil.
      fold (rounds_of w sid). unfold created at 1. simpl.
      destruct (decide (crp_sessionId params = sid)) as [<-|Hne].
      * rewrite fmap_app, length_app. simpl.
        replace (length (rounds_of w (crp_sessionId params)) + 1)%nat
          with (S (length (rounds_of w (crp_sessionId params)))) by lia.
        rewrite seqZ_S, (Hw (crp_sessionId params)). simpl. do 2 f_equal. lia.
      * rewrite app_nil_r. apply Hw.
  - apply (well_indexed_same_indices w); [|done]. intros sid. unfold rounds_of.
    destruct (startRound_rounds now roundId w) as [-> | ->]; [done|].
    by apply rounds_of_updateRound.
  - apply (well_indexed_same_indices w); [|done]. intros sid. unfold rounds_of.
    destruct (stopRound_rounds now roundId w) as [-> | ->]; [done|].
    by apply rounds_of_updateRound.
Qed.

Lemma round_indices_stay_gap_free_witness :
  well_indexed (exec (RoundManager.createRound "r1" (prompt_only "s1" "p")) session_open)
  ∧ well_indexed (exec (RoundManager.startRound 1 "r1") session_open)
  ∧ well_indexed (exec (RoundManager.stopRound 1 "r1") session_open).
Proof.
  apply (round_indices_stay_gap_free 1 "r1" "r1" (prompt_only "s1" "p") session_open).
  intros sid. reflexivity.
Defined.

(** ** The control plane: sessions, kicks, live tokens *)

Lemma length_append (s1 s2 : string) :
  String.length (s1 +:+ s2) = (String.length s1 + String.length s2)%nat.
Proof. induction s1 as [|c s1 IH]; simpl; [done|by rewrite IH]. Qed.

Lemma length_zeros (n : nat) : String.length (Routes.zeros n) = n.
Proof. induction n as [|n IH]; simpl; [done|by rewrite IH]. Qed.

Lemma length_substring (n m : nat) (s : string) :
  String.length (String.substring n m s) = (m `min` (String.length s - n))%nat.
Proof.
  revert n m. induction s as [|c s IH]; intros n m.
  - destruct n, m; simpl; lia.
  - destruct n as [|n]; simpl.
    + destruct m as [|m]; simpl; [done|]. rewrite IH. lia.
    + apply IH.
Qed.

Lemma findActiveSession_all_ended (ss : list Session.t) :
  (∀ s, s ∈ ss → Session.status s = ended) →
  Hub.findActiveSession ss = None.
Proof.
  unfold Hub.findActiveSession.
  induction ss as [|s ss IH] using rev_ind; intros Hall; [done|].
  rewrite foldl_snoc, IH.
  - rewrite (Hall s); [done|]. apply elem_of_app. right. by left.
  - intros s' Hin. apply Hall. apply elem_of_app. by left.
Qed.

Lemma end_active_all_ended (ss : list Session.t) (s : Session.t) :
  s ∈ Routes.end_active ss → Session.status s = ended.
Proof.
  unfold Routes.end_active. intros Hin.
  apply list_elem_of_fmap in Hin as (s0 & -> & _).
  by destruct (Session.status s0) eqn:Hst.
Qed.

Lemma post_session_run (kMaxLength : Z) (random : string)
    (bcrypt_hash : string → string)
    (newId : string) (now : Z) (body : Routes.CreateSessionBody) (w : World) :
  Routes.post_session kMaxLength random bcrypt_hash newId now body w
  = match pin_of kMaxLength random body with
    | Ok pin =>
        (Ok (newId, pin, now),
         with_logger (λ ls, ls ++ [{| level := info; text := "Session created";
                                      attached := None |}])
           (with_prisma (with_session (λ ss,
              Routes.end_active ss ++ [new_session bcrypt_hash newId now pin])) w))
    | Throw e => (Throw e, w)
    end.
Proof.
  unfold Routes.post_session, pin_of, Routes.lift. run_M.
  destruct (Routes.CreateSessionSchema_parse body) as [n|e]; [|done]. simpl.
  by destruct (Routes.new_pin kMaxLength random n).
Qed.

Lemma post_session_frame (kMaxLength : Z) (random : string)
    (bcrypt_hash : string → string)
    (newId : string) (now : Z) (body : Routes.CreateSessionBody) (w : World) :
  let w' := exec (Routes.post_session kMaxLength random bcrypt_hash newId now body) w in
  connections w' = connections w ∧ tokenBuffer w' = tokenBuffer w.
Proof.
  intros w'. unfold w', exec. rewrite post_session_run.
  by destruct (pin_of kMaxLength random body).
Qed.

Lemma post_session_finds_the_new_session
    (kMaxLength : Z) (random : string) (bcrypt_hash : string → string)
    (newId : string) (now : Z) (body : Routes.CreateSessionBody) (w : World)
    (pin : string) :
  pin_of kMaxLength random body = Ok pin →
  Hub.findActiveSession
    (session (prisma (exec (Routes.post_session kMaxLength random bcrypt_hash
                              newId now body) w)))
  = Some (new_session bcrypt_hash newId now pin).
Proof.
  intros Hpin. unfold exec. rewrite post_session_run, Hpin. simpl.
  unfold Hub.findActiveSession. rewrite foldl_snoc.
  fold (Hub.findActiveSession (Routes.end_active (session (prisma w)))).
  rewrite findActiveSession_all_ended; [done|].
  intros s. apply end_active_all_ended.
Qed.

(** The length of the PIN: when [pinLength] truncates to [n], a length
    from 0 to the longest string, and [2 + pinLength] to [2 + n], the PIN
    is computed and has [n] characters, whatever the random string. *)
Lemma new_pin_length (kMaxLength : Z) (random : string) (pinLength : float) (n : Z) :
  Routes.ToIntegerOrInfinity pinLength = Routes.Int n →
  Routes.ToIntegerOrInfinity (2 + pinLength)%float = Routes.Int (2 + n) →
  0 ≤ n ≤ kMaxLength `min` (2 ^ 53 - 1) →
  ∃ pin, Routes.new_pin kMaxLength random pinLength = Ok pin
    ∧ Z.of_nat (String.length pin) = n.
Proof.
  intros Hn H2n Hrange.
  assert (Hbig : 2 ^ 53 - 1 = 9007199254740991) by reflexivity.
  rewrite Hbig in Hrange.
  unfold Routes.new_pin, Routes.padStart, Routes.slice, Routes.ToLength.
  rewrite Hn, H2n, Hbig.
  set (len := Z.of_nat (String.length random)).
  assert (Hlen : 0 ≤ len) by (unfold len; lia).
  replace (2 <? 0) with false by done.
  replace (2 + n <? 0) with false by (symmetry; apply Z.ltb_ge; lia).
  replace (Z.max n 0 `min` 9007199254740991) with n by lia.
  destruct (Z.leb_spec ((2 + n) `min` len) (2 `min` len)) as [Hle|Hlt].
  - simpl String.length. change (Z.of_nat 0) with 0.
    destruct (Z.leb_spec n 0) as [H0|H0].
    + exists EmptyString. split; [done|]. simpl. lia.
    + replace (kMaxLength <? n) with false by (symmetry; apply Z.ltb_ge; lia).
      eexists. split; [done|].
      rewrite length_append, length_zeros. simpl. lia.
  - set (cut := String.substring _ _ random).
    assert (Hcut : Z.of_nat (String.length cut) = (2 + n) `min` len - 2 `min` len).
    { unfold cut. rewrite length_substring. unfold len in *. lia. }
    destruct (Z.leb_spec n (Z.of_nat (String.length cut))) as [H0|H0].
    + exists cut. split; [done|]. lia.
    + replace (kMaxLength <? n) with false by (symmetry; apply Z.ltb_ge; lia).
      eexists. split; [done|].
      rewrite length_append, length_zeros. lia.
Qed.

(** X17.  At most one session is active.  Whether [POST /session] serves a
    request depends on the request alone: it throws, before it touches the
    store, when the schema refuses [pinLength] or the PIN cannot be built.
    When it serves the request, the store holds every earlier session,
    ended, and after them the new one, which is the only active session
    and the one [findActiveSession] picks -- however many sessions were
    active before and whatever their creation times.  Registry and token
    buffer are not touched. *)
Theorem post_session_leaves_one_active_session
    (kMaxLength : Z) (random : string) (bcrypt_hash : string → string)
    (newId : string) (now : Z) (body : Routes.CreateSessionBody) (w : World) :
  let run := Routes.post_session kMaxLength random bcrypt_hash newId now body in
  let w' := exec run w in
  match pin_of kMaxLength random body with
  | Ok pin =>
      let new := new_session bcrypt_hash newId now pin in
      eval run w = Ok (newId, pin, now)
      ∧ (Session.id <$> session (prisma w')) = (Session.id <$> session (prisma w)) ++ [newId]
      ∧ (∀ s, s ∈ session (prisma w') → Session.status s = active → s = new)
      ∧ Hub.findActiveSession (session (prisma w')) = Some new
      ∧ connections w' = connections w ∧ tokenBuffer w' = tokenBuffer w
  | Throw e => run w = (Throw e, w)
  end.
Proof.
  intros run w'.
  destruct (pin_of kMaxLength random body) as [pin|e] eqn:Hpin.
  - pose proof (post_session_finds_the_new_session kMaxLength random bcrypt_hash
                  newId now body w pin Hpin) as Hfound.
    unfold w', run, exec, eval in *. rewrite post_session_run, Hpin in *. simpl in *.
    split; [done|]. split; [|split; [|split]].
    + rewrite fmap_app. simpl. f_equal. unfold Routes.end_active.
      rewrite <- list_fmap_compose. apply list_fmap_ext. intros i s _. simpl.
      by destruct (Session.status s).
    + intros s Hin Hact. apply elem_of_app in Hin as [Hin|Hin].
      * apply end_active_all_ended in Hin. congruence.
      * by apply list_elem_of_singleton in Hin.
    + exact Hfound.
    + done.
  - unfold run. by rewrite post_session_run, Hpin.
Qed.

(** X18.  The PIN of a new session.  When the requested [pinLength] (6
    when the request gives none) truncates to a length [n] from 0 to the
    longest string of the engine, and [2 + pinLength] to [2 + n] -- as for
    an integral [pinLength] that the addition does not round -- the
    request is served and the PIN has exactly [n] characters, whatever the
    random string it is cut from; and it opens the session: when
    [bcrypt.compare] accepts a PIN against its own hash, a register
    message carrying the PIN that [POST /session] returned is admitted, by
    the new session. *)
Theorem new_session_pin_opens_the_session
    (bcrypt_compare : string → string → bool) (bcrypt_hash : string → string)
    (kMaxLength : Z) (random : string) (newId : string) (now : Z)
    (body : Routes.CreateSessionBody) (w : World) (message : RegisterMessage)
    (pinLength : float) (n : Z) :
  (∀ pin, bcrypt_compare pin (bcrypt_hash pin) = true) →
  Routes.CreateSessionSchema_parse body = Ok pinLength →
  Routes.ToIntegerOrInfinity pinLength = Routes.Int n →
  Routes.ToIntegerOrInfinity (2 + pinLength)%float = Routes.Int (2 + n) →
  0 ≤ n ≤ kMaxLength `min` (2 ^ 53 - 1) →
  let run := Routes.post_session kMaxLength random bcrypt_hash newId now body in
  ∃ pin, eval run w = Ok (newId, pin, now)
    ∧ Z.of_nat (String.length pin) = n
    ∧ (reg_pin message = pin →
         admitted bcrypt_compare message (exec run w)
         = Some (new_session bcrypt_hash newId now pin)).
Proof.
  intros Hhash Hparse Hn H2n Hrange run.
  destruct (new_pin_length kMaxLength random pinLength n Hn H2n Hrange)
    as (pin & Hpin & Hlen).
  assert (Hof : pin_of kMaxLength random body = Ok pin)
    by (unfold pin_of; by rewrite Hparse).
  exists pin. split; [|split; [done|]].
  - unfold run, eval. by rewrite post_session_run, Hof.
  - intros Hreg. unfold admitted, run.
    rewrite (post_session_finds_the_new_session _ _ _ _ _ _ _ pin Hof).
    simpl. by rewrite Hreg, Hhash.
Qed.

Lemma new_session_pin_opens_the_session_witness :
  let run := Routes.post_session v8_kMaxLength "0.0421" id "s9" 7
               {| Routes.pinLength := None |} in
  ∃ pin, eval run empty_world = Ok ("s9", pin, 7)
    ∧ Z.of_nat (String.length pin) = 6
    ∧ (reg_pin (alice_with_pin "000421") = pin →
         admitted plain_compare (alice_with_pin "000421") (exec run empty_world)
         = Some (new_session id "s9" 7 pin)).
Proof.
  apply (new_session_pin_opens_the_session plain_compare id v8_kMaxLength "0.0421"
           "s9" 7 {| Routes.pinLength := None |} empty_world
           (alice_with_pin "000421") 6%float 6).
  - intros pin. unfold plain_compare. by apply bool_decide_eq_true_2.
  - reflexivity.
  - reflexivity.
  - reflexivity.
  - vm_compute. split; discriminate.
Defined.

(** Every integral length from 0 to 4096 meets the two conditions on
    [pinLength]; a fraction may fail the second. *)
Example integral_lengths_are_read_back :
  forallb read_back (seqZ 0 4097) = true
  ∧ Routes.ToIntegerOrInfinity 0x1.fffffffffffffp+0 = Routes.Int 1
  ∧ Routes.ToIntegerOrInfinity (2 + 0x1.fffffffffffffp+0)%float = Routes.Int 4.
Proof. vm_compute. done. Qed.

(** A short random string is padded with zeros, a long one is cut. *)
Example short_random_string_is_padded :
  Routes.new_pin v8_kMaxLength "0.0421" 6 = Ok "000421"
  ∧ Routes.new_pin v8_kMaxLength "0.123456789" 4 = Ok "1234".
Proof. vm_compute. done. Qed.

(** Lengths the schema lets through that are no lengths: a fraction is
    truncated, a negative length cuts the random string from its end and
    pads nothing, a length beyond the longest string makes [padStart]
    throw, and so does the infinity an oversized literal is read as. *)
Example pin_lengths_that_are_no_lengths :
  Routes.new_pin v8_kMaxLength "0.123456789" 2.5 = Ok "12"
  ∧ Routes.new_pin v8_kMaxLength "0.123456789" (-3) = Ok "12345678"
  ∧ Routes.new_pin v8_kMaxLength "0.123456789" 1e9 = Throw RangeError
  ∧ Routes.new_pin v8_kMaxLength "0.123456789" infinity = Throw RangeError
  ∧ Routes.new_pin v8_kMaxLength "0.123456789" neg_infinity = Ok EmptyString.
Proof. vm_compute. done. Qed.

(** A request that is not served leaves the store as it was. *)
Example oversized_pin_length_is_refused :
  Routes.post_session v8_kMaxLength "0.123456789" id "s9" 7
    {| Routes.pinLength := Some 1e9%float |} session_open
  = (Throw RangeError, session_open).
Proof. vm_compute. done. Qed.



Lemma createRound_frame (newId : string) (params : CreateRoundParams) (w : World) :
  tokenBuffer (exec (RoundManager.createRound newId params) w) = tokenBuffer w
  ∧ connections (exec (RoundManager.createRound newId params) w) = connections w.
Proof.
  unfold exec. rewrite createRound_run. by destruct (find _ _).
Qed.

Lemma startRound_frame (now : Z) (roundId : string) (w : World) :
  tokenBuffer (exec (RoundManager.startRound now roundId) w) = tokenBuffer w
  ∧ connections (exec (RoundManager.startRound now roundId) w) = connections w.
Proof.
  unfold exec, RoundManager.startRound. run_M.
  destruct (RoundManager.findRound (prisma w) roundId) as [rd|]; [|done].
  destruct (Round.startedAt rd); [done|].
  match goal with |- context [Hub.broadcast ?msg ?w1] =>
    destruct (broadcast_run msg w1) as (w2 & -> & _ & Hcs & Htb & _) end.
  simpl. by rewrite Hcs, Htb.
Qed.

Lemma post_rounds_frame (newId : string) (body : Routes.CreateRoundBody) (w : World) :
  tokenBuffer (exec (Routes.post_rounds newId body) w) = tokenBuffer w.
Proof.
  unfold exec, Routes.post_rounds. run_M.
  destruct (Hub.findActiveSession (session (prisma w))) as [s|]; [|done].
  match goal with |- context [RoundManager.createRound ?i ?p ?w1] =>
    pose proof (createRound_frame i p w1) as [Htb _]; unfold exec in Htb;
    destruct (RoundManager.createRound i p w1) as [[rd|e] w2] end; by simpl in *.
Qed.

Lemma get_rounds_current_live_tokens (w : World) (rd : Round.t)
    (snap : gmap string (list string)) :
  eval Routes.get_rounds_current w = Ok (Routes.reply (rd, snap)) →
  RoundManager.getCurrentRound
    (default EmptyString (Session.id <$> Hub.findActiveSession (session (prisma w)))) w
  = (Ok (Some rd), w)
  ∧ ∀ p, snap !! p = tokenBuffer w !! p ≫= (.!! Round.index rd).
Proof.
  unfold eval, Routes.get_rounds_current. run_M.
  destruct (Hub.findActiveSession (session (prisma w))) as [s|]; [|done]. simpl.
  unfold RoundManager.getCurrentRound, gets at 1.
  destruct (foldl _ None (round (prisma w))) as [r|]; [|done]. simpl.
  intros [= <- <-]. split; [done|]. intros p. by rewrite lookup_omap.
Qed.

(** X20.  Buffered tokens outlive sessions and rounds.  Opening a new
    session, creating a round in it and starting that round leave the
    token buffer exactly as it was, and [GET /rounds/current] reports as
    live tokens of the current round whatever the buffer holds under that
    round's index: fragments streamed under the same index before the
    round existed are reported as its live tokens. *)
Theorem buffered_tokens_outlive_sessions_and_rounds
    (kMaxLength : Z) (random : string) (bcrypt_hash : string → string)
    (sessionId roundId : string)
    (now : Z) (sbody : Routes.CreateSessionBody) (rbody : Routes.CreateRoundBody)
    (w : World) :
  let w1 := exec (Routes.post_session kMaxLength random bcrypt_hash sessionId now
                    sbody) w in
  let w2 := exec (Routes.post_rounds roundId rbody) w1 in
  let w3 := exec (Routes.post_rounds_start now roundId) w2 in
  tokenBuffer w3 = tokenBuffer w
  ∧ ∀ rd snap, eval Routes.get_rounds_current w3 = Ok (Routes.reply (rd, snap)) →
      ∀ p, snap !! p = tokenBuffer w !! p ≫= (.!! Round.index rd).
Proof.
  intros w1 w2 w3.
  assert (Htb : tokenBuffer w3 = tokenBuffer w).
  { unfold w3, Routes.post_rounds_start.
    destruct (startRound_frame now roundId w2) as [-> _].
    unfold w2. rewrite post_rounds_frame.
    apply (post_session_frame kMaxLength random bcrypt_hash sessionId now sbody w). }
  split; [done|]. intros rd snap Hget p.
  destruct (get_rounds_current_live_tokens w3 rd snap Hget) as [_ Hsnap].
  by rewrite Hsnap, Htb.
Qed.

(** "alice" has "a", "b" buffered under index 1; a new session is opened,
    its first round created and started: the live tokens of that round
    are hers. *)
Example stale_tokens_are_live_tokens :
  let w1 := exec (Routes.post_session v8_kMaxLength "0.5" id "s2" 20
                    {| Routes.pinLength := None |}) stale_buffer in
  let w2 := exec (Routes.post_rounds "r2" (Routes.Build_CreateRoundBody "q" None None
                                             None None)) w1 in
  let w3 := exec (Routes.post_rounds_start 21 "r2") w2 in
  snd <$> (match eval Routes.get_rounds_current w3 with
           | Ok (Routes.reply x) => Some x
           | _ => None
           end)
  = Some {[ "alice" := ["a"; "b"] ]}.
Proof. vm_compute. reflexivity. Qed.

(** ** The client *)

Lemma receive_app (ms1 ms2 : list TokenMessage) (w : World) :
  exec (receive (ms1 ++ ms2)) w = exec (receive ms2) (exec (receive ms1) w).
Proof.
  revert w. induction ms1 as [|m ms1 IH]; intros w; [done|].
  rewrite <- app_comm_cons, !receive_step. apply IH.
Qed.

Lemma written_by_challenge (r : Z) (events : list Client.Event) :
  ∀ seq c,
    token_frames (Client.written (foldl (Client.step r) (seq, c) events).2)
    = token_frames (Client.written c)
      ++ sent_frames (Client.participantId (Client.config c)) r events seq
           (Client.isOpen c).
Proof.
  induction events as [|e events IH]; intros seq c; simpl.
  - by rewrite app_nil_r.
  - destruct e as [content| |]; simpl; unfold Client.onToken; simpl; rewrite IH; simpl.
    + unfold Client.sendToken, Client.send.
      destruct (Client.isOpen c) eqn:Ho; simpl; rewrite ?Ho; [|done].
      unfold token_frames. rewrite omap_app. simpl. by rewrite <- app_assoc.
    + done.
    + unfold token_frames. rewrite omap_app. simpl. by rewrite app_nil_r.
Qed.

Lemma handleToken_ahead (m : TokenMessage) (w : World) :
  Z.of_nat (length (stream w (tok_participant_id m) (tok_round m))) < tok_seq m →
  stream (exec (Hub.handleToken m) w) (tok_participant_id m) (tok_round m)
  = stream w (tok_participant_id m) (tok_round m).
Proof.
  intros Hseq. rewrite stream_handleToken.
  rewrite (bool_decide_eq_true_2 (_ ∧ _)) by auto.
  unfold expected. by rewrite bool_decide_eq_false_2 by lia.
Qed.

Lemma sent_frames_received (p : string) (r : Z) (events : list Client.Event) :
  ∀ seq o w,
    (seq = Z.of_nat (length (stream w p r)) →
       stream (exec (receive (sent_frames p r events seq o)) w) p r
       = stream w p r ++ until_first_drop events o)
    ∧ (Z.of_nat (length (stream w p r)) < seq →
         stream (exec (receive (sent_frames p r events seq o)) w) p r
         = stream w p r).
Proof.
  induction events as [|e events IH]; intros seq o w; simpl.
  - by rewrite app_nil_r.
  - destruct e as [content| |]; [|apply IH|apply IH].
    destruct o; simpl.
    + set (m := {| tok_round := r; tok_participant_id := p;
                   tok_seq := seq; tok_content := content |}).
      rewrite receive_step.
      pose proof (stream_handleToken m w p r) as Hst.
      rewrite (bool_decide_eq_true_2 (_ ∧ _)) in Hst by auto.
      unfold expected in Hst. simpl in Hst.
      destruct (IH (seq + 1) true (exec (Hub.handleToken m) w)) as [IH1 IH2].
      split; intros Hseq.
      * rewrite bool_decide_eq_true_2 in Hst by done.
        rewrite IH1; rewrite Hst; [by rewrite <- app_assoc|].
        rewrite length_app. simpl. lia.
      * rewrite bool_decide_eq_false_2 in Hst by lia.
        rewrite IH2; rewrite Hst; [done|lia].
    + destruct (IH (seq + 1) false w) as [_ IH2].
      split; intros Hseq; rewrite IH2 by lia; [by rewrite app_nil_r|done].
Qed.

(** X21.  What reaches the buffer when the client's socket drops.  The
    simulated client numbers its tokens 0, 1, 2, ... as the runner
    produces them and writes a token frame only while its socket is open.
    If the hub receives the token frames it wrote for a challenge, on an
    empty stream, the buffer ends up holding exactly the fragments
    generated before the first one that was generated while the socket
    was not open: that fragment leaves a gap, and every later one is
    dropped by the hub even when the socket is open again. *)
Theorem hub_buffers_until_first_dropped_token
    (round : Z) (events : list Client.Event) (c : Client.t) (w : World) :
  Client.written c = [] →
  stream w (Client.participantId (Client.config c)) round = [] →
  stream (exec (receive (token_frames
                           (Client.written (Client.on_challenge round events c).2))) w)
    (Client.participantId (Client.config c)) round
  = until_first_drop events (Client.isOpen c).
Proof.
  intros Hwritten Hempty. unfold Client.on_challenge.
  rewrite written_by_challenge, Hwritten. simpl.
  destruct (sent_frames_received (Client.participantId (Client.config c)) round
              events 0 (Client.isOpen c) w) as [H _].
  rewrite H; rewrite Hempty; done.
Qed.

Lemma hub_buffers_until_first_dropped_token_witness :
  let events := [Client.token_generated "a"; Client.socket_closed;
                 Client.token_generated "b"; Client.socket_reopened;
                 Client.token_generated "c"] in
  stream (exec (receive (token_frames
                   (Client.written (Client.on_challenge 1 events alice_client).2)))
            empty_world) "alice" 1
  = ["a"].
Proof.
  intros events.
  exact (hub_buffers_until_first_dropped_token 1 events alice_client empty_world
           eq_refl eq_refl).
Defined.

(** X22.  The reconnection policy.  With the counter between 0 and 5 --
    where [connect] and [attemptReconnect] keep it -- a call schedules a
    reconnection exactly when fewer than 5 attempts were made since the
    socket was last open, after 1000 ms doubled once per earlier attempt
    (1 s, 2 s, 4 s, 8 s, 16 s: never less than 1 s nor more than 16 s),
    and counts it; at 5 it gives up and changes nothing.  A socket that
    opens resets the counter. *)
Theorem reconnection_backs_off_and_gives_up (c : Client.t) :
  0 ≤ Client.reconnectAttempts c ≤ 5 →
  let n := Client.reconnectAttempts c in
  let c' := (Client.attemptReconnect c).2 in
  (Client.attemptReconnect c).1
  = (if bool_decide (n < 5) then Some (1000 * 2 ^ n) else None)
  ∧ (n < 5 → 1000 ≤ 1000 * 2 ^ n ≤ 16000 ∧ Client.reconnectAttempts c' = n + 1)
  ∧ (n = 5 → c' = c)
  ∧ 0 ≤ Client.reconnectAttempts c' ≤ 5
  ∧ Client.reconnectAttempts (Client.on_open c') = 0.
Proof.
  intros Hn n c'. unfold c', Client.attemptReconnect, Client.maxReconnectAttempts,
    Client.reconnectDelay. fold n.
  destruct (Z.leb_spec 5 n) as [Hge|Hlt]; simpl.
  - rewrite bool_decide_eq_false_2 by lia. split; [done|].
    split; [lia|]. split; [done|]. split; [done|].
    unfold Client.on_open, Client.send. simpl. done.
  - rewrite bool_decide_eq_true_2 by lia.
    replace (n + 1 - 1) with n by lia. split; [done|].
    assert (Hpow : 1 ≤ 2 ^ n ≤ 16).
    { assert (n = 0 ∨ n = 1 ∨ n = 2 ∨ n = 3 ∨ n = 4) as Hcases by lia.
      destruct Hcases as [->|[->|[->|[->| ->]]]]; simpl; lia. }
    split; [intros _; split; [lia|done]|]. split; [lia|]. split; [lia|].
    unfold Client.on_open, Client.send. simpl. done.
Qed.

Lemma reconnection_backs_off_and_gives_up_witness :
  (Client.attemptReconnect alice_client).1 = Some 1000
  ∧ Client.reconnectAttempts (Client.attemptReconnect alice_client).2 = 1.
Proof.
  assert (H0 : 0 ≤ Client.reconnectAttempts alice_client ≤ 5) by (simpl; lia).
  pose proof (reconnection_backs_off_and_gives_up alice_client H0) as (H1 & H2 & _).
  split; [exact H1|]. apply H2. simpl. lia.
Defined.

(** Five failed reconnections in a row, and the sixth close. *)
Example five_attempts_then_none :
  let retry c := (Client.attemptReconnect c).2 in
  let c5 := retry (retry (retry (retry (retry alice_client)))) in
  (Client.attemptReconnect (retry (retry (retry (retry alice_client))))).1 = Some 16000
  ∧ Client.attemptReconnect c5 = (None, c5).
Proof. vm_compute. done. Qed.

(** ** One open round at a time is the caller's business *)

Lemma elem_of_updateRound_other (id : string) (f : Round.t → Round.t)
    (rs : list Round.t) (r : Round.t) :
  r ∈ rs → Round.id r ≠ id → r ∈ RoundManager.updateRound id f rs.
Proof.
  intros Hin Hne. unfold RoundManager.updateRound.
  apply list_elem_of_fmap. exists r. split; [|done].
  by rewrite bool_decide_eq_false_2.
Qed.

(** X23.  [startRound] looks at the round it is asked to start and at no
    other: a pending round is started also while another round of the
    same session is open, and afterwards both are open.  The manager
    itself does not keep "at most one active round per session". *)
Theorem startRound_allows_a_second_open_round
    (now : Z) (roundId sid : string) (w : World) (pending_one open_one : Round.t) :
  RoundManager.findRound (prisma w) roundId = Some pending_one →
  Round.startedAt pending_one = None → Round.endedAt pending_one = None →
  Round.sessionId pending_one = sid →
  open_one ∈ round (prisma w) → is_open sid open_one → Round.id open_one ≠ roundId →
  let w' := exec (RoundManager.startRound now roundId) w in
  let started := RoundManager.set_startedAt now pending_one in
  eval (RoundManager.startRound now roundId) w = Ok started
  ∧ open_one ∈ round (prisma w') ∧ is_open sid open_one
  ∧ started ∈ round (prisma w') ∧ is_open sid started
  ∧ started ≠ open_one.
Proof.
  intros Hfind Hstart Hend Hsid Hin Hopen Hne w' started.
  destruct (startRound_pending now roundId w pending_one Hfind Hstart) as [Hev Hdb].
  unfold w'. rewrite Hdb. split; [done|].
  split; [by apply elem_of_updateRound_other|]. split; [done|].
  assert (Hid : Round.id pending_one = roundId ∧ pending_one ∈ round (prisma w)).
  { unfold RoundManager.findRound in Hfind. clear -Hfind.
    induction (round (prisma w)) as [|r rs IH]; [done|]. simpl in Hfind.
    case_bool_decide.
    - injection Hfind as <-. split; [done|by left].
    - destruct (IH Hfind). split; [done|by right]. }
  destruct Hid as [Hid Hpin]. split.
  - unfold RoundManager.updateRound. apply list_elem_of_fmap.
    exists pending_one. split; [|done]. by rewrite bool_decide_eq_true_2.
  - split; [by repeat split; simpl; eauto|].
    intros Heq. apply Hne. rewrite <- Heq. done.
Qed.

Lemma startRound_allows_a_second_open_round_witness :
  let w' := exec (RoundManager.startRound 9 "r2") one_open_one_pending in
  eval (RoundManager.startRound 9 "r2") one_open_one_pending
  = Ok (RoundManager.set_startedAt 9 second_round)
  ∧ RoundManager.set_startedAt 5 round_one ∈ round (prisma w')
  ∧ RoundManager.set_startedAt 9 second_round ∈ round (prisma w').
Proof.
  assert (Hin : RoundManager.set_startedAt 5 round_one
                ∈ round (prisma one_open_one_pending)) by left.
  assert (Hopen : is_open "s1" (RoundManager.set_startedAt 5 round_one)).
  { split; [reflexivity|]. split; [by eexists|reflexivity]. }
  assert (Hne : Round.id (RoundManager.set_startedAt 5 round_one) ≠ "r2")
    by discriminate.
  pose proof (startRound_allows_a_second_open_round 9 "r2" "s1" one_open_one_pending
                second_round (RoundManager.set_startedAt 5 round_one)
                eq_refl eq_refl eq_refl eq_refl Hin Hopen Hne)
    as (H1 & H2 & _ & H3 & _).
  split; [exact H1|]. split; [exact H2 | exact H3].
Defined.

(** ** The mock runner *)

Lemma split_length (s : string) : (1 ≤ length (MockRunner.split s))%nat.
Proof.
  induction s as [|c s IH]; simpl; [lia|].
  destruct (Ascii.eqb c MockRunner.space); simpl; [lia|].
  destruct (MockRunner.split s); simpl; lia.
Qed.

Lemma append_cons (c : Ascii.ascii) (s1 s2 : string) :
  String c s1 +:+ s2 = String c (s1 +:+ s2).
Proof. reflexivity. Qed.

Lemma append_empty_r (s : string) : s +:+ EmptyString = s.
Proof. induction s as [|c s IH]; [done|]. by rewrite append_cons, IH. Qed.

Lemma append_assoc (s1 s2 s3 : string) : (s1 +:+ s2) +:+ s3 = s1 +:+ (s2 +:+ s3).
Proof. induction s1 as [|c s1 IH]; [done|]. by rewrite !append_cons, IH. Qed.

Lemma join_split (s : string) : join_spaces (MockRunner.split s) = s.
Proof.
  induction s as [|c s IH]; [done|]. simpl.
  destruct (Ascii.eqb_spec c MockRunner.space) as [->|Hne].
  - pose proof (split_length s) as Hlen.
    destruct (MockRunner.split s) as [|w ws] eqn:Hs; [simpl in Hlen; lia|].
    change (join_spaces (EmptyString :: w :: ws))
      with (String MockRunner.space (join_spaces (w :: ws))).
    by rewrite IH.
  - pose proof (split_length s) as Hlen.
    destruct (MockRunner.split s) as [|w ws] eqn:Hs; [simpl in Hlen; lia|].
    rewrite <- IH. by destruct ws.
Qed.

(** The first loop emits words at indices [j] with [3 j < maxTokens]
    only, and no more words than there are. *)
Lemma word_tokens_count (m : Z) (n : nat) (words : list string) :
  ∀ i, let c := length (MockRunner.word_tokens m n i words) in
    (c ≤ length words)%nat
    ∧ (c = 0%nat ∨ 3 * (Z.of_nat i + Z.of_nat c - 1) < m).
Proof.
  induction words as [|word rest IH]; intros i; simpl; [by split; [|left]|].
  destruct (Z.ltb_spec (3 * Z.of_nat i) m) as [Hlt|Hge]; simpl; [|by split; [lia|left]].
  destruct (IH (S i)) as [Hle Hbound]. split; [lia|]. right.
  destruct Hbound as [->|Hbound]; simpl; lia.
Qed.

(** X24.  The mock runner respects the token limit, as its test expects:
    for every limit of at least 1, every choice of response and every
    outcome of the random tokens, [generate] emits at least one token and
    at most [maxTokens]; without a limit, or with limit 0, the limit is
    400; with a negative limit nothing is emitted. *)
Theorem mock_runner_respects_max_tokens
    (m : Z) (pick : nat) (generateRandomToken : nat → string) :
  (1 ≤ m →
     1 ≤ Z.of_nat (length (MockRunner.generate (Some m) pick generateRandomToken)) ≤ m)
  ∧ MockRunner.generate (Some 0) pick generateRandomToken
    = MockRunner.generate None pick generateRandomToken
  ∧ 1 ≤ Z.of_nat (length (MockRunner.generate None pick generateRandomToken)) ≤ 400
  ∧ (m < 0 → MockRunner.generate (Some m) pick generateRandomToken = []).
Proof.
  assert (Hbound : ∀ k, 1 ≤ k →
    let words := MockRunner.split (default EmptyString (MockRunner.MOCK_RESPONSES !! pick)) in
    1 ≤ Z.of_nat (length (MockRunner.word_tokens k (length words) 0 words
            ++ (if 0 <? k - Z.of_nat (length words) * 3
                then generateRandomToken <$> seq 0 (Z.to_nat (k - Z.of_nat (length words) * 3))
                else []))) ≤ k).
  { intros k Hk words. rewrite length_app.
    pose proof (split_length (default EmptyString (MockRunner.MOCK_RESPONSES !! pick)))
      as Hwords. fold words in Hwords.
    destruct (word_tokens_count k (length words) words 0) as [Hle Hc].
    assert (Hone : (1 ≤ length (MockRunner.word_tokens k (length words) 0 words))%nat).
    { destruct words as [|w ws]; [simpl in Hwords; lia|]. simpl.
      destruct (Z.ltb_spec (3 * Z.of_nat 0) k); simpl; lia. }
    destruct (Z.ltb_spec 0 (k - Z.of_nat (length words) * 3)).
    - rewrite length_fmap, length_seq. lia.
    - simpl. destruct Hc as [Hc|Hc]; lia. }
  split; [|split; [|split]].
  - intros Hm. unfold MockRunner.generate.
    destruct (Z.eqb_spec m 0) as [->|_]; [lia|]. by apply Hbound.
  - done.
  - unfold MockRunner.generate. by apply Hbound.
  - intros Hm. unfold MockRunner.generate.
    destruct (Z.eqb_spec m 0) as [->|_]; [lia|].
    rewrite (proj2 (Z.ltb_ge 0 _)) by lia. rewrite app_nil_r.
    destruct (MockRunner.split _) as [|w ws]; [done|]. simpl.
    by rewrite (proj2 (Z.ltb_ge (3 * Z.of_nat 0) m)) by lia.
Qed.

Example mock_runner_limit_100 (generateRandomToken : nat → string) :
  length (MockRunner.generate (Some 100) 0 generateRandomToken) = 68%nat
  ∧ length (MockRunner.generate (Some 10) 0 generateRandomToken) = 4%nat.
Proof. vm_compute. done. Qed.

Lemma word_tokens_all (m : Z) (n : nat) (words : list string) :
  ∀ i, (i + length words = n)%nat → 3 * Z.of_nat n ≤ m →
    length (MockRunner.word_tokens m n i words) = length words
    ∧ concat_strings (MockRunner.word_tokens m n i words) = join_spaces words.
Proof.
  induction words as [|word rest IH]; intros i Hn Hm; [done|]. simpl in *.
  rewrite (proj2 (Z.ltb_lt (3 * Z.of_nat i) m)) by lia.
  destruct (IH (S i)) as [Hlen Hcat]; [lia|done|].
  simpl. rewrite Hlen, Hcat. split; [done|].
  destruct rest as [|word' rest'].
  - simpl in *. rewrite (proj2 (Nat.ltb_ge i (n - 1))) by lia.
    by rewrite !append_empty_r.
  - rewrite (proj2 (Nat.ltb_lt i (n - 1))) by (simpl in Hn; lia).
    by rewrite append_assoc.
Qed.

(** X25.  With a limit of at least three tokens per word the mock runner
    plays the chosen response back whole: the first [words.length] tokens,
    put together, are the response, character for character (splitting at
    spaces and re-attaching them loses nothing), and the tokens after
    them are the random ones. *)
Theorem mock_runner_plays_the_response_back
    (m : Z) (pick : nat) (generateRandomToken : nat → string) :
  let response := default EmptyString (MockRunner.MOCK_RESPONSES !! pick) in
  let n := length (MockRunner.split response) in
  3 * Z.of_nat n ≤ m →
  concat_strings (take n (MockRunner.generate (Some m) pick generateRandomToken))
  = response
  ∧ drop n (MockRunner.generate (Some m) pick generateRandomToken)
    = generateRandomToken <$> seq 0 (Z.to_nat (m - 3 * Z.of_nat n)).
Proof.
  intros response n Hm. unfold MockRunner.generate. fold response. fold n.
  pose proof (split_length response) as Hn. fold n in Hn.
  destruct (Z.eqb_spec m 0) as [->|_]; [lia|].
  destruct (word_tokens_all m n (MockRunner.split response) 0) as [Hlen Hcat];
    [done|done|]. fold n in Hlen.
  rewrite take_app_length' by done. rewrite drop_app_length' by done.
  split; [by rewrite Hcat, join_split|].
  replace (m - Z.of_nat n * 3) with (m - 3 * Z.of_nat n) by lia.
  destruct (Z.ltb_spec 0 (m - 3 * Z.of_nat n)); [done|].
  by replace (Z.to_nat (m - 3 * Z.of_nat n)) with 0%nat by lia.
Qed.

Lemma mock_runner_plays_the_response_back_witness :
  concat_strings (take 16 (MockRunner.generate (Some 400) 0 (λ _, "x")))
  = default EmptyString (MockRunner.MOCK_RESPONSES !! 0%nat).
Proof.
  refine (proj1 (mock_runner_plays_the_response_back 400 0 (λ _, "x") _)).
  vm_compute. discriminate.
Defined.

(** ** The streaming runners *)

Lemma split_lines_cons (s : string) :
  ∃ l ls, Runners.split_lines s = l :: ls.
Proof.
  destruct s as [|c s]; simpl; [by eexists _, _|].
  destruct (Ascii.eqb c Runners.newline); [by eexists _, _|].
  destruct (Runners.split_lines s); by eexists _, _.
Qed.

Lemma pop_cons (l0 l1 : string) (ls : list string) :
  Runners.pop (l0 :: l1 :: ls)
  = (l0 :: (Runners.pop (l1 :: ls)).1, (Runners.pop (l1 :: ls)).2).
Proof.
  change (Runners.pop (l0 :: l1 :: ls))
    with (let '(kept, last) := Runners.pop (l1 :: ls) in (l0 :: kept, last)).
  by destruct (Runners.pop (l1 :: ls)).
Qed.

Lemma pop_app (ls ks : list string) (k : string) :
  Runners.pop (ls ++ k :: ks)
  = (ls ++ (Runners.pop (k :: ks)).1, (Runners.pop (k :: ks)).2).
Proof.
  induction ls as [|l ls IH];
    [change ([] ++ k :: ks) with (k :: ks); by destruct (Runners.pop (k :: ks))|].
  destruct ls as [|l' ls]; simpl app in *.
  - by rewrite pop_cons.
  - by rewrite pop_cons, IH.
Qed.

(** Splitting a stream that is continued: the lines that were complete
    stay, and the last, unfinished one is continued. *)
Lemma split_lines_app (a b : string) :
  Runners.split_lines (a +:+ b)
  = (Runners.pop (Runners.split_lines a)).1
    ++ Runners.split_lines ((Runners.pop (Runners.split_lines a)).2 +:+ b).
Proof.
  induction a as [|c a IH]; [done|].
  rewrite append_cons. simpl Runners.split_lines.
  destruct (split_lines_cons a) as (l & ls & Ha). rewrite Ha in *.
  destruct (Ascii.eqb c Runners.newline) eqn:Hc.
  - rewrite pop_cons. simpl. by rewrite IH.
  - rewrite IH. destruct ls as [|l' ls].
    + simpl. rewrite ?append_cons. simpl. by rewrite ?Hc.
    + rewrite !pop_cons. simpl. done.
Qed.

(** The line taken off the end holds no line break. *)
Lemma popped_line_is_one_line (s : string) :
  Runners.split_lines (Runners.pop (Runners.split_lines s)).2
  = [(Runners.pop (Runners.split_lines s)).2].
Proof.
  induction s as [|c s IH]; [done|]. simpl Runners.split_lines.
  destruct (split_lines_cons s) as (l & ls & Hs). rewrite Hs in *.
  destruct (Ascii.eqb c Runners.newline) eqn:Hc.
  - by rewrite pop_cons.
  - destruct ls as [|l' ls].
    + simpl in *. rewrite Hc, IH. done.
    + rewrite pop_cons. rewrite pop_cons in IH. done.
Qed.

Lemma for_lines_app (handle : string → Runners.Action) (ls ks : list string) :
  Runners.for_lines handle (ls ++ ks)
  = if (Runners.for_lines handle ls).2 then Runners.for_lines handle ls
    else ((Runners.for_lines handle ls).1 ++ (Runners.for_lines handle ks).1,
          (Runners.for_lines handle ks).2).
Proof.
  induction ls as [|l ls IH]; simpl.
  - by destruct (Runners.for_lines handle ks).
  - destruct (handle l) as [text returns]. destruct returns; [done|].
    rewrite IH. destruct (Runners.for_lines handle ls) as [tokens returned].
    simpl. destruct returned; [done|].
    destruct (Runners.for_lines handle ks). simpl. by rewrite app_assoc.
Qed.

Lemma read_loop_complete_lines (handle : string → Runners.Action)
    (chunks : list string) :
  ∀ buffer, Runners.split_lines buffer = [buffer] →
    Runners.read_loop handle buffer chunks
    = (Runners.for_lines handle
         (complete_lines (buffer +:+ concat_strings chunks))).1.
Proof.
  unfold complete_lines.
  induction chunks as [|value rest IH]; intros buffer Hbuf.
  - simpl. by rewrite append_empty_r, Hbuf.
  - simpl Runners.read_loop. simpl concat_strings.
    rewrite <- append_assoc.
    rewrite (split_lines_app (buffer +:+ value) (concat_strings rest)).
    destruct (Runners.pop (Runners.split_lines (buffer +:+ value)))
      as [lines buffer'] eqn:Hpop.
    assert (Hone : Runners.split_lines buffer' = [buffer']).
    { pose proof (popped_line_is_one_line (buffer +:+ value)) as H.
      by rewrite Hpop in H. }
    simpl fst. simpl snd.
    destruct (split_lines_cons (buffer' +:+ concat_strings rest)) as (k & ks & Hk).
    rewrite Hk, pop_app. simpl fst. rewrite for_lines_app.
    destruct (Runners.for_lines handle lines) as [tokens returned].
    simpl. destruct returned; [done|].
    rewrite (IH buffer' Hone), Hk. done.
Qed.

(** X26.  The tokens of a streaming runner do not depend on how the
    response body is cut into chunks.  Whatever the line handler (that of
    Ollama, that of LM Studio, with any JSON reader), [generate] hands
    over exactly the tokens of the complete lines of the whole body, in
    order, up to the line on which it returns; so two ways of chunking the
    same body give the same tokens, and what follows the last line break
    is never looked at. *)
Theorem runner_tokens_ignore_chunking
    (handle : string → Runners.Action) (chunks chunks' : list string) :
  Runners.generate handle chunks
  = (Runners.for_lines handle (complete_lines (concat_strings chunks))).1
  ∧ (concat_strings chunks = concat_strings chunks' →
       Runners.generate handle chunks = Runners.generate handle chunks').
Proof.
  assert (H : ∀ cs, Runners.generate handle cs
                    = (Runners.for_lines handle
                         (complete_lines (concat_strings cs))).1).
  { intros cs. unfold Runners.generate.
    by rewrite read_loop_complete_lines. }
  split; [apply H|]. intros Heq. by rewrite !H, Heq.
Qed.

(** An LM Studio body of two events and the end marker, whole and cut in
    the middle of a line; the JSON reader here takes the data for the
    text. *)
Example lmstudio_chunks :
  let handle := Runners.lmstudio_line (λ line, bool_decide (line = EmptyString)) Some in
  let nl := String Runners.newline EmptyString in
  let body := "data: a" +:+ nl +:+ nl +:+ "data: b" +:+ nl +:+ "data: [DONE]" +:+ nl
              +:+ "data: c" +:+ nl in
  Runners.generate handle [body] = ["a"; "b"]
  ∧ Runners.generate handle ["data: a" +:+ nl +:+ nl +:+ "da"; "ta: b" +:+ nl +:+ "data: [DO";
                             "NE]" +:+ nl +:+ "data: c" +:+ nl] = ["a"; "b"]
  ∧ Runners.generate handle ["data: a" +:+ nl +:+ "data: b"] = ["a"].
Proof. vm_compute. done. Qed.
